(** * deb2aci: dependency closure resolver and image assembler

    A shallow embedding of [main.go] of deb2aci: the dependency string
    parser [parseDeps], the recursive resolver [download], the assembler
    [createACI] and the driver [convert], followed by the properties of
    the specification that were checked against them.

    Go strings are byte sequences; they are modelled by [string] (a list
    of 8-bit [ascii]).  The map [map[string]*deb] is a [gmap string deb]:
    every stored pointer is the address of a fresh literal, so an entry is
    non-nil exactly when the key is present. *)

From Stdlib Require Import Ascii String NArith.
From stdpp Require Import gmap strings list fin_maps.

Set Warnings "-clear-no-such-hyp".

Local Open Scope string_scope.
Local Open Scope list_scope.

(** ** The functions of Go's [strings] package that [main.go] calls *)

Module GoStrings.

(** [asciiSpace] of package strings: tab, newline, vertical tab, form
    feed, carriage return and space. *)
Definition asciiSpace (c : ascii) : bool :=
  let n := N_of_ascii c in
  ((9 <=? n) && (n <=? 13) || (n =? 32))%N.

(** The white space runes above U+007F of [unicode.IsSpace], as the
    bytes of their UTF-8 encodings: U+0085 and U+00A0 take two bytes, *)
Definition space2 (c1 c2 : ascii) : bool :=
  let n1 := N_of_ascii c1 in
  let n2 := N_of_ascii c2 in
  ((n1 =? 194) && ((n2 =? 133) || (n2 =? 160)))%N.

(** and U+1680, U+2000..U+200A, U+2028, U+2029, U+202F, U+205F and
    U+3000 take three. *)
Definition space3 (c1 c2 c3 : ascii) : bool :=
  let n1 := N_of_ascii c1 in
  let n2 := N_of_ascii c2 in
  let n3 := N_of_ascii c3 in
  ((n1 =? 225) && (n2 =? 154) && (n3 =? 128)
   || (n1 =? 226) && (n2 =? 128)
      && ((128 <=? n3) && (n3 <=? 138) || (n3 =? 168) || (n3 =? 169)
          || (n3 =? 175))
   || (n1 =? 226) && (n2 =? 129) && (n3 =? 159)
   || (n1 =? 227) && (n2 =? 128) && (n3 =? 128))%N.

(** Drop the white space runes at the front of [s]
    ([strings.TrimLeftFunc s unicode.IsSpace]).  A byte that does not
    begin the encoding of a white space rune stops the scan, whether or
    not it is valid UTF-8. *)
Fixpoint TrimLeftSpace (s : string) : string :=
  match s with
  | "" => ""
  | String c1 r1 =>
      if asciiSpace c1 then TrimLeftSpace r1 else
      match r1 with
      | "" => s
      | String c2 r2 =>
          if space2 c1 c2 then TrimLeftSpace r2 else
          match r2 with
          | "" => s
          | String c3 r3 => if space3 c1 c2 c3 then TrimLeftSpace r3 else s
          end
      end
  end.

(** The same scan from the end, on the reversed bytes: the last rune is
    a white space rune exactly when the string ends with its encoding
    ([utf8.DecodeLastRuneInString]). *)
Fixpoint TrimLeftSpaceRev (s : string) : string :=
  match s with
  | "" => ""
  | String c1 r1 =>
      if asciiSpace c1 then TrimLeftSpaceRev r1 else
      match r1 with
      | "" => s
      | String c2 r2 =>
          if space2 c2 c1 then TrimLeftSpaceRev r2 else
          match r2 with
          | "" => s
          | String c3 r3 =>
              if space3 c3 c2 c1 then TrimLeftSpaceRev r3 else s
          end
      end
  end.

Definition TrimRightSpace (s : string) : string :=
  String.rev (TrimLeftSpaceRev (String.rev s)).

(** [strings.TrimSpace]. *)
Definition TrimSpace (s : string) : string :=
  TrimRightSpace (TrimLeftSpace s).

(** [strings.Split s sep] for a separator of one byte, which is how
    [main.go] calls it (["," ] and [" "]).  The result is never empty:
    a string without the separator is returned whole, the empty string
    included. *)
Fixpoint Split (s : string) (sep : ascii) : list string :=
  match s with
  | "" => [""]
  | String c r =>
      if Ascii.eqb c sep then "" :: Split r sep
      else match Split r sep with
           | [] => [String c ""]
           | h :: t => String c h :: t
           end
  end.

End GoStrings.

Import GoStrings.

(** ** [parseDeps] *)

(** [parseDeps] returns a slice; [None] stands for the run-time panic of
    an index out of range at [o[0]].  A nil slice and an empty slice are
    both the empty list. *)
Definition parseDeps (line : string) : option (list string) :=
  let line := TrimSpace line in
  if (String.length line =? 0)%nat then Some [] else
  let parts := Split line "," in
  if (List.length parts =? 0)%nat then Some [] else
  mapM (fun p => let o := Split (TrimSpace p) " " in o !! 0%nat) parts.

(** ** Data model *)

(** [type deb struct], in the order of its declaration. *)
Record deb := Deb {
  Name : string;
  Path : string;
  Version : string;
  Arch : string;
}.

(** [types.ACIdentifier] is a string type of the appc schema. *)
Definition ACIdentifier := string.

(** [types.Annotation] and [types.Annotations]. *)
Record Annotation := { AnnotationName : ACIdentifier; AnnotationValue : string }.

(** [schema.ImageManifest]: [createACI] reads and writes only the field
    [Annotations]; the other members of the document (ACKind, ACVersion,
    Name, Labels, App, Dependencies, PathWhitelist) are kept together as
    [Other], member name and value. *)
Record ImageManifest := {
  Other : list (string * string);
  Annotations : list Annotation;
}.

(** Go [error] values, one constructor per place that creates or forwards
    one.  [IndexOutOfRange] is the run-time panic of [o[0]] in
    [parseDeps]: like an error it unwinds through [download] up to
    [convert], whose deferred function still runs. *)
Inductive error :=
  | TempDirError (dir pfx : string)
  | RunError (cmd : list string)
  | OutputError (cmd : list string)
  | Unexpected (globFailed : bool) (matches : list string)
  | SanitizeError (s : string)
  | IdentifierError (s : string)
  | MarshalError
  | WriteFileError (path : string)
  | IndexOutOfRange.

(** What the program does to the outside world, in the order it does it.
    [log.Printf] is left out. *)
Inductive event :=
  | EvTempDir (dir pfx : string)
  | EvChdir (dir : string)
  | EvMkdirAll (path : string)
  | EvRun (cmd : list string)
  | EvOutput (cmd : list string)
  | EvGlob (pattern : string)
  | EvWriteFile (path bytes : string)
  | EvRemoveAll (path : string).

Global Instance deb_eq_dec : EqDecision deb.
Proof. solve_decision. Defined.
Global Instance error_eq_dec : EqDecision error.
Proof. solve_decision. Defined.
Global Instance event_eq_dec : EqDecision event.
Proof. solve_decision. Defined.

(** The outcome of every call that leaves the program.  A package is
    fetched at most once in a run, so what the tools answer for it is given
    by its name.  [None] and [false] are failures. *)
Record World := {
  (** [ioutil.TempDir("", "deb2aci")] in [convert] *)
  work_dir : option string;
  (** [ioutil.TempDir(dir, "pkg")] in [download pkg] *)
  pkg_dir : string → option string;
  (** [apt-get download pkg] *)
  apt_get : string → bool;
  (** [filepath.Glob] on the directory of [pkg]: its error and its matches *)
  glob_failed : string → bool;
  glob_matches : string → list string;
  (** [dpkg-deb -x] on the archive of [pkg] *)
  dpkg_extract : string → bool;
  (** the combined output of [dpkg-deb -f] on the archive of [pkg], by field *)
  dpkg_field : string → string → option string;
  (** [ioutil.TempDir(dir, "image")] in [createACI] *)
  image_dir : option string;
  (** [cp -a d.Path/. rootfs] *)
  cp : deb → bool;
  (** [types.SanitizeACIdentifier] and [types.NewACIdentifier] *)
  SanitizeACIdentifier : string → option string;
  NewACIdentifier : string → option ACIdentifier;
  (** [m.MarshalJSON], [ioutil.WriteFile] of the manifest, [actool build] *)
  MarshalJSON : ImageManifest → option string;
  write_manifest : bool;
  actool : bool;
  (** The order in which [range] visits a map.  Go leaves it unspecified;
      every entry is visited once. *)
  range : gmap string deb → list deb;
  range_once : ∀ fs, range fs ≡ₚ (map_to_list fs).*2;
}.

(** [filepath.Join] of two elements that need no cleaning. *)
Definition Join (a b : string) : string := a +:+ "/" +:+ b.

(** Modelled from the spec: [Annotations.Set] of the appc schema, which
    [createACI] calls and whose code is not among the sources. The spec
    (4.4) has the annotator append an Annotation to the manifest's
    annotation sequence: "only new entries are appended". *)
Definition Annotations_Set (a : list Annotation) (name : ACIdentifier)
    (value : string) : list Annotation :=
  a ++ [{| AnnotationName := name; AnnotationValue := value |}].

(** ** The program *)

(** A call returns its [error] ([None] is nil), the map it was handed as
    it left it, and the events it caused. *)
Definition result : Type := option error * gmap string deb * list event.

(** [for _, x := range l { if err := f(x); err != nil { return err } }]
    over a slice.  [None] is a body that did not return. *)
Fixpoint for_each (f : string → gmap string deb → option result)
    (l : list string) (done : gmap string deb) : option result :=
  match l with
  | [] => Some (None, done, [])
  | x :: l =>
      match f x done with
      | None => None
      | Some (Some e, done, evs) => Some (Some e, done, evs)
      | Some (None, done, evs) =>
          match for_each f l done with
          | None => None
          | Some (e, done, evs') => Some (e, done, evs ++ evs')
          end
      end
  end.

Section Program.
Variable w : World.

(** [output]: the trimmed combined output of a command. *)
Definition output (out : option string) : option string :=
  TrimSpace <$> out.

Definition apt_get_download (pkg : string) : list string :=
  ["apt-get"; "download"; pkg].
Definition dpkg_deb_x (debName out : string) : list string :=
  ["dpkg-deb"; "-x"; debName; out].
Definition dpkg_deb_f (debName field : string) : list string :=
  ["dpkg-deb"; "-f"; debName; field].

(** [download].  The recursion of the source is bounded by [fuel]; a
    call that needs more returns [None]. *)
Fixpoint download (fuel : nat) (pkg dir : string)
    (done : gmap string deb) : option result :=
  match fuel with
  | O => None
  | S fuel =>
    match done !! pkg with
    | Some _ => Some (None, done, [])
    | None =>
      match pkg_dir w pkg with
      | None => Some (Some (TempDirError dir "pkg"), done, [EvTempDir dir "pkg"])
      | Some tdir =>
        let evs := [EvTempDir dir "pkg"; EvChdir tdir;
                    EvRun (apt_get_download pkg)] in
        if negb (apt_get w pkg)
        then Some (Some (RunError (apt_get_download pkg)), done, evs) else
        let evs := evs ++ [EvGlob (Join tdir "*.deb")] in
        match glob_failed w pkg, glob_matches w pkg with
        | false, [debName] =>
          let x := dpkg_deb_x debName (Join tdir "out") in
          let evs := evs ++ [EvRun x] in
          if negb (dpkg_extract w pkg)
          then Some (Some (RunError x), done, evs) else
          let evs := evs ++ [EvOutput (dpkg_deb_f debName "Architecture")] in
          match output (dpkg_field w pkg "Architecture") with
          | None =>
            Some (Some (OutputError (dpkg_deb_f debName "Architecture")),
                  done, evs)
          | Some arch =>
            let evs := evs ++ [EvOutput (dpkg_deb_f debName "Version")] in
            match output (dpkg_field w pkg "Version") with
            | None =>
              Some (Some (OutputError (dpkg_deb_f debName "Version")),
                    done, evs)
            | Some ver =>
              let done :=
                <[pkg := {| Name := pkg; Path := Join tdir "out";
                            Arch := arch; Version := ver |}]> done in
              let evs := evs ++ [EvOutput (dpkg_deb_f debName "Depends")] in
              match output (dpkg_field w pkg "Depends") with
              | None =>
                Some (Some (OutputError (dpkg_deb_f debName "Depends")),
                      done, evs)
              | Some out =>
                match parseDeps out with
                | None => Some (Some IndexOutOfRange, done, evs)
                | Some deps =>
                  match for_each (fun d => download fuel d dir) deps done with
                  | None => None
                  | Some (e, done, evs') => Some (e, done, evs ++ evs')
                  end
                end
              end
            end
          end
        | failed, matches => Some (Some (Unexpected failed matches), done, evs)
        end
      end
    end
  end.

Definition cp_a (d : deb) (rootfs : string) : list string :=
  ["cp"; "-a"; Path d +:+ "/."; rootfs].

(** The loop of [createACI] over the entries of [fs], in the order
    [range] visits them: copy the tree, then record the annotation. *)
Fixpoint merge (rootfs : string) (ds : list deb) (m : ImageManifest)
    : option error * ImageManifest * list event :=
  match ds with
  | [] => (None, m, [])
  | d :: ds =>
    let ev := EvRun (cp_a d rootfs) in
    if negb (cp w d) then (Some (RunError (cp_a d rootfs)), m, [ev]) else
    match SanitizeACIdentifier w ("debian.org/deb/" +:+ Name d) with
    | None => (Some (SanitizeError ("debian.org/deb/" +:+ Name d)), m, [ev])
    | Some i =>
      match NewACIdentifier w i with
      | None => (Some (IdentifierError i), m, [ev])
      | Some a =>
        let m := {| Other := Other m;
                    Annotations :=
                      Annotations_Set (Annotations m) a
                        (Arch d +:+ "/" +:+ Version d) |} in
        let '(e, m, evs) := merge rootfs ds m in
        (e, m, ev :: evs)
      end
    end
  end.

Definition actool_build (idir image : string) : list string :=
  ["actool"; "build"; "-overwrite"; idir; image].

(** [createACI].  The manifest is reached through a pointer, so the
    caller sees what was set before a failure. *)
Definition createACI (dir : string) (fs : gmap string deb) (image : string)
    (m : ImageManifest) : option error * ImageManifest * list event :=
  match image_dir w with
  | None => (Some (TempDirError dir "image"), m, [EvTempDir dir "image"])
  | Some idir =>
    let rootfs := Join idir "rootfs" in
    let evs := [EvTempDir dir "image"; EvMkdirAll rootfs] in
    match merge rootfs (range w fs) m with
    | (Some e, m, evs') => (Some e, m, evs ++ evs')
    | (None, m, evs') =>
      let evs := evs ++ evs' in
      match MarshalJSON w m with
      | None => (Some MarshalError, m, evs)
      | Some bytes =>
        let evs := evs ++ [EvWriteFile (Join idir "manifest") bytes] in
        if negb (write_manifest w)
        then (Some (WriteFileError (Join idir "manifest")), m, evs) else
        let evs := evs ++ [EvRun (actool_build idir image)] in
        if negb (actool w)
        then (Some (RunError (actool_build idir image)), m, evs)
        else (None, m, evs)
      end
    end
  end.

(** [convert].  The deferred [os.RemoveAll(dir)] is the last event of
    every path on which [dir] was made; its own failure is only logged. *)
Definition convert (fuel : nat) (pkgs : list string) (image : string)
    (manifest : ImageManifest)
    : option (option error * ImageManifest * list event) :=
  match work_dir w with
  | None =>
    Some (Some (TempDirError "" "deb2aci"), manifest,
          [EvTempDir "" "deb2aci"])
  | Some dir =>
    match for_each (fun pkg => download fuel pkg dir) pkgs ∅ with
    | None => None
    | Some (Some e, _, evs) =>
      Some (Some e, manifest,
            EvTempDir "" "deb2aci" :: evs ++ [EvRemoveAll dir])
    | Some (None, fs, evs) =>
      let '(e, m, evs') := createACI dir fs image manifest in
      Some (e, m,
            EvTempDir "" "deb2aci" :: evs ++ evs' ++ [EvRemoveAll dir])
    end
  end.

End Program.

(** ** Worlds to run the program in *)

(** A repository lists, for each package it holds, the control fields
    Architecture, Version and Depends. *)
Definition repository := list (string * (string * string * string)).

Definition control (repo : repository) (pkg field : string) : option string :=
  match list_to_map (M := gmap string (string * string * string)) repo !! pkg with
  | None => None
  | Some (arch, ver, deps) =>
      if String.eqb field "Architecture" then Some arch
      else if String.eqb field "Version" then Some ver
      else if String.eqb field "Depends" then Some deps
      else None
  end.

(** The archive that [apt-get download pkg] leaves in the directory of
    [pkg]. *)
Definition deb_file (pkg : string) : list string :=
  ["/tmp/deb2aci/pkg-" +:+ pkg +:+ "/" +:+ pkg +:+ ".deb"].

(** A world in which [apt-get] finds exactly the packages of [repo],
    [filepath.Glob] answers [matches], [cp] succeeds where [copy] says so
    and every other tool works; [range] visits a map in the order of
    [map_to_list]. *)
Definition tool_world (repo : repository) (matches : string → list string)
    (copy : deb → bool) : World := {|
  work_dir := Some "/tmp/deb2aci";
  pkg_dir pkg := Some ("/tmp/deb2aci/pkg-" +:+ pkg);
  apt_get pkg := bool_decide (is_Some (control repo pkg "Version"));
  glob_failed _ := false;
  glob_matches := matches;
  dpkg_extract _ := true;
  dpkg_field := control repo;
  image_dir := Some "/tmp/deb2aci/image";
  cp := copy;
  SanitizeACIdentifier s := Some s;
  NewACIdentifier s := Some s;
  MarshalJSON _ := Some "{}";
  write_manifest := true;
  actool := true;
  range fs := (map_to_list fs).*2;
  range_once fs := reflexivity _;
|}.

(** The world in which every tool works. *)
Definition repo_world (repo : repository) : World :=
  tool_world repo deb_file (fun _ => true).

Definition diamond : repository :=
  [("A", ("amd64", "1.0", "B (>= 1.0), C"));
   ("B", ("amd64", "1.1", "D"));
   ("C", ("all", "2.0", "D (>= 0.5)"));
   ("D", ("amd64", "0.9", ""))].

(** Two packages that depend on each other. *)
Definition cycle : repository :=
  [("A", ("amd64", "1.0", "B"));
   ("B", ("amd64", "1.0", "A (>= 1.0)"))].

(** A repository in which a dependency of A is missing. *)
Definition incomplete : repository :=
  [("A", ("amd64", "1.0", "B, X"));
   ("B", ("amd64", "1.1", ""))].

(** The diamond, where no archive is found for C after its download, *)
Definition no_archive_world : World :=
  tool_world diamond
    (fun pkg => if String.eqb pkg "C" then [] else deb_file pkg)
    (fun _ => true).

(** and where the tree of B cannot be copied. *)
Definition no_copy_world : World :=
  tool_world diamond deb_file (fun d => negb (String.eqb (Name d) "B")).

(** The record of a package that was unpacked in its directory. *)
Definition unpacked (pkg arch ver : string) : deb :=
  {| Name := pkg; Path := "/tmp/deb2aci/pkg-" +:+ pkg +:+ "/out";
     Version := ver; Arch := arch |}.

(** The map that resolving A in the diamond leaves. *)
Definition diamond_fs : gmap string deb :=
  list_to_map
    [("A", unpacked "A" "amd64" "1.0"); ("B", unpacked "B" "amd64" "1.1");
     ("C", unpacked "C" "all" "2.0"); ("D", unpacked "D" "amd64" "0.9")].

Definition base_manifest : ImageManifest :=
  {| Other := [("name", "example.com/app")];
     Annotations := [{| AnnotationName := "debian.org/deb/D";
                        AnnotationValue := "i386/0.1" |}] |}.

(** ** The parser in the words of the specification *)

(** The bytes of [s] before the first [sep]. *)
Fixpoint before (sep : ascii) (s : string) : string :=
  match s with
  | "" => ""
  | String c r => if Ascii.eqb c sep then "" else String c (before sep r)
  end.

(** A white space rune, as its UTF-8 bytes. *)
Inductive SpaceRune : string → Prop :=
  | SpaceRune1 c : asciiSpace c = true → SpaceRune (String c "")
  | SpaceRune2 c1 c2 :
      space2 c1 c2 = true → SpaceRune (String c1 (String c2 ""))
  | SpaceRune3 c1 c2 c3 :
      space3 c1 c2 c3 = true →
      SpaceRune (String c1 (String c2 (String c3 ""))).

(** A declaration that is empty or made of white space only. *)
Inductive WhitespaceOnly : string → Prop :=
  | WhitespaceOnly_empty : WhitespaceOnly ""
  | WhitespaceOnly_rune r s :
      SpaceRune r → WhitespaceOnly s → WhitespaceOnly (r +:+ s).

(** Section 4.2 of the specification: the declaration is split on commas,
    each clause is trimmed and white-space-tokenized ([String.words] splits
    on tab, newline, vertical tab, form feed, carriage return and space),
    a clause without a token is skipped, and the first token of every
    other clause is the dependency name. *)
Definition Parse_spec (declaration : string) : list string :=
  omap (fun clause => head (String.words (TrimSpace clause)))
       (Split declaration ",").

(** A declaration whose version constraint follows a tab. *)
Definition tab_declaration : string :=
  "libc6" +:+ String "009" "(>= 2.14), libssl1.1".

(** ** The resolver in the words of the specification *)

Section Graph.
Variable w : World.
Variable dir : string.

(** What the tools answer when [pkg] is fetched (lines 147 to 185 of
    [download]): the error that stops the fetch, or the record that is
    stored for [pkg]. *)
Definition fetch (pkg : string) : error + deb :=
  match pkg_dir w pkg with
  | None => inl (TempDirError dir "pkg")
  | Some tdir =>
    if negb (apt_get w pkg) then inl (RunError (apt_get_download pkg)) else
    match glob_failed w pkg, glob_matches w pkg with
    | false, [debName] =>
      if negb (dpkg_extract w pkg)
      then inl (RunError (dpkg_deb_x debName (Join tdir "out"))) else
      match output (dpkg_field w pkg "Architecture") with
      | None => inl (OutputError (dpkg_deb_f debName "Architecture"))
      | Some arch =>
        match output (dpkg_field w pkg "Version") with
        | None => inl (OutputError (dpkg_deb_f debName "Version"))
        | Some ver =>
          inr {| Name := pkg; Path := Join tdir "out";
                 Arch := arch; Version := ver |}
        end
      end
    | failed, matches => inl (Unexpected failed matches)
    end
  end.

Definition fetched (pkg : string) : option deb :=
  match fetch pkg with inr d => Some d | inl _ => None end.

(** The dependency names of [pkg]: its Depends field, parsed. *)
Definition depends (pkg : string) : option (list string) :=
  out ← output (dpkg_field w pkg "Depends"); parseDeps out.

(** [reaches p q]: [q] is [p] or a transitive dependency of [p]. *)
Inductive reaches : string → string → Prop :=
  | reaches_refl p : reaches p p
  | reaches_step p deps d q :
      depends p = Some deps → d ∈ deps → reaches d q → reaches p q.

End Graph.

(** The packages that were fetched, in the order of the [apt-get download]
    commands of a run. *)
Definition fetch_of (ev : event) : option string :=
  match ev with
  | EvRun [a; b; pkg] =>
      if String.eqb a "apt-get" && String.eqb b "download" then Some pkg
      else None
  | _ => None
  end.

Definition fetches (evs : list event) : list string := omap fetch_of evs.

(** The annotation that [createACI] records for a package. *)
Definition annotation (w : World) (d : deb) : option Annotation :=
  i ← SanitizeACIdentifier w ("debian.org/deb/" +:+ Name d);
  a ← NewACIdentifier w i;
  Some {| AnnotationName := a;
          AnnotationValue := Arch d +:+ "/" +:+ Version d |}.

(** The events that write the manifest or build the image. *)
Definition produces (ev : event) : bool :=
  match ev with
  | EvWriteFile _ _ => true
  | EvRun (c :: _) => String.eqb c "actool"
  | _ => false
  end.

(** The copies into the root file system, one command per package. *)
Definition copies (rootfs : string) (ds : list deb) : list event :=
  (fun d => EvRun (cp_a d rootfs)) <$> ds.

(** A list without its repeated elements, first occurrences kept. *)
Fixpoint uniq_from (seen : gset string) (l : list string) : list string :=
  match l with
  | [] => []
  | x :: l =>
      if decide (x ∈ seen) then uniq_from seen l
      else x :: uniq_from ({[x]} ∪ seen) l
  end.

Definition uniq : list string → list string := uniq_from ∅.

(** What a run of the resolver on [targets] from the map [done] has done
    when it returns [r]: no package was fetched twice or while present;
    every fetched package has its own directory and is a target or a
    dependency of one; the map
    holds what it held and the record of each package whose fetch went
    through; a fetch that was stopped is the error of the run; and after
    a run without error the targets and the dependencies of every fetched
    package are present. *)
Definition resolved (w : World) (dir : string) (targets : list string)
    (done : gmap string deb) (r : result) : Prop :=
  let '(e, done', evs) := r in
  NoDup (fetches evs) ∧
  (∀ p, p ∈ fetches evs →
        done !! p = None ∧ is_Some (pkg_dir w p) ∧
        ∃ t, t ∈ targets ∧ reaches w t p) ∧
  (∀ p, done' !! p =
        match done !! p with
        | Some d => Some d
        | None => if decide (p ∈ fetches evs) then fetched w dir p else None
        end) ∧
  (∀ p err, p ∈ fetches evs → fetch w dir p = inl err → e = Some err) ∧
  (e = None →
   (∀ t, t ∈ targets → is_Some (done' !! t)) ∧
   (∀ p, p ∈ fetches evs →
         ∃ deps, depends w p = Some deps ∧
                 ∀ d, d ∈ deps → is_Some (done' !! d))).

(** ** The events of the two phases *)

(** What the resolver does to the outside: a directory per package,
    [apt-get], [filepath.Glob] and [dpkg-deb]. *)
Definition resolver_event (ev : event) : bool :=
  match ev with
  | EvTempDir _ pfx => String.eqb pfx "pkg"
  | EvChdir _ | EvGlob _ | EvOutput _ => true
  | EvRun (c :: _) => String.eqb c "apt-get" || String.eqb c "dpkg-deb"
  | _ => false
  end.

(** What the assembler does: the image directory, the root file system,
    [cp], the manifest file and [actool]. *)
Definition assembler_event (ev : event) : bool :=
  match ev with
  | EvTempDir _ pfx => String.eqb pfx "image"
  | EvMkdirAll _ | EvWriteFile _ _ => true
  | EvRun (c :: _) => String.eqb c "cp" || String.eqb c "actool"
  | _ => false
  end.

(** ** Declarations as [dpkg] writes them *)

(** A byte of a package name, a relation or a version: printable ASCII
    other than the space and the comma. *)
Definition word_byte (c : ascii) : bool :=
  let n := N_of_ascii c in
  ((32 <? n) && (n <? 127) && negb (n =? 44))%N.

Fixpoint word_bytes (s : string) : bool :=
  match s with
  | "" => true
  | String c r => word_byte c && word_bytes r
  end.

(** A word: one byte or more, all of them word bytes. *)
Definition word (s : string) : bool :=
  match s with
  | "" => false
  | String _ _ => word_bytes s
  end.

(** The words of a version constraint, each after one space. *)
Fixpoint spaced (ws : list string) : string :=
  match ws with
  | [] => ""
  | t :: ws => " " +:+ t +:+ spaced ws
  end.

(** A clause: a package name and the words of its constraint, as in
    [libc6 (>= 2.14)]. *)
Definition clause (c : string * list string) : string :=
  c.1 +:+ spaced c.2.

(** A declaration: its clauses, separated by a comma and a space. *)
Fixpoint declaration (cls : list (string * list string)) : string :=
  match cls with
  | [] => ""
  | c :: cls =>
      match cls with
      | [] => clause c
      | _ :: _ => clause c +:+ ", " +:+ declaration cls
      end
  end.

(** The string has no byte [sep]. *)
Fixpoint free (sep : ascii) (s : string) : bool :=
  match s with
  | "" => true
  | String c r => negb (Ascii.eqb c sep) && free sep r
  end.

(** A string that ends with a word byte. *)
Definition ends_with_word (s : string) : Prop :=
  ∃ c r, String.rev s = String c r ∧ word_byte c = true.

(** A clause is well formed when its name and the words of its constraint
    are words. *)
Definition well_formed (c : string * list string) : Prop :=
  word c.1 = true ∧ Forall (fun t => word t = true) c.2.

(** The order of a depth-first traversal: every fetched package is a
    target, or a dependency of a package fetched before it. *)
Definition parent_first (w : World) (targets fetched : list string) : Prop :=
  ∀ (i : nat) p,
    fetched !! i = Some p →
    p ∈ targets ∨
    ∃ q deps, q ∈ take i fetched ∧ depends w q = Some deps ∧ p ∈ deps.

(** The event that builds the image. *)
Definition builds_image (ev : event) : bool :=
  match ev with
  | EvRun (c :: _) => String.eqb c "actool"
  | _ => false
  end.

(** [w] with another answer of [types.SanitizeACIdentifier]. *)
Definition with_sanitize (w : World) (f : string → option string) : World := {|
  work_dir := work_dir w;
  pkg_dir := pkg_dir w;
  apt_get := apt_get w;
  glob_failed := glob_failed w;
  glob_matches := glob_matches w;
  dpkg_extract := dpkg_extract w;
  dpkg_field := dpkg_field w;
  image_dir := image_dir w;
  cp := cp w;
  SanitizeACIdentifier := f;
  NewACIdentifier := NewACIdentifier w;
  MarshalJSON := MarshalJSON w;
  write_manifest := write_manifest w;
  actool := actool w;
  range := range w;
  range_once := range_once w;
|}.

(** The diamond, where the name of B cannot be made an identifier. *)
Definition no_identifier_world : World :=
  with_sanitize (repo_world diamond)
    (fun s => if String.eqb s "debian.org/deb/B" then None else Some s).

(** ** Properties of the parser *)

Section Parser.

Lemma Split_head s sep : Split s sep !! 0%nat = Some (before sep s).
Proof.
  induction s as [|c r IH]; simpl; [done|].
  destruct (Ascii.eqb c sep); [done|].
  destruct (Split r sep) as [|h t]; simpl in *; congruence.
Qed.

Lemma Split_length s sep :
  List.length (Split s sep)
  = S (List.length (filter (fun c => c = sep) (list_ascii_of_string s))).
Proof.
  induction s as [|c r IH]; simpl; [done|].
  rewrite filter_cons.
  destruct (Ascii.eqb_spec c sep) as [->|Hne]; case_decide; try done.
  - simpl. by rewrite IH.
  - destruct (Split r sep) as [|h t]; simpl in *; [lia|done].
Qed.

Lemma mapM_Some_fmap {A B} (g : A → B) (l : list A) :
  mapM (fun x => Some (g x)) l = Some (g <$> l).
Proof. induction l as [|x l IH]; simpl; [done|]. by rewrite IH. Qed.

(** What [parseDeps] computes, with the panic ruled out. *)
Lemma parseDeps_eq line :
  parseDeps line =
  Some (if decide (TrimSpace line = "") then []
        else (fun p => before " " (TrimSpace p)) <$> Split (TrimSpace line) ",").
Proof.
  unfold parseDeps.
  destruct (TrimSpace line) as [|c r] eqn:Ht; [done|].
  rewrite decide_False by done.
  change (String.length (String c r) =? 0)%nat with false. cbv iota.
  rewrite Split_length. cbn [Nat.eqb].
  erewrite mapM_ext; [apply mapM_Some_fmap|].
  intros p. simpl. apply Split_head.
Qed.

Lemma asciiSpace_not_lead c1 c2 : space2 c1 c2 = true → asciiSpace c1 = false.
Proof.
  unfold space2, asciiSpace. intros H.
  apply andb_prop in H as [H _]. apply N.eqb_eq in H.
  rewrite H. reflexivity.
Qed.

Lemma space3_lead c1 c2 c3 :
  space3 c1 c2 c3 = true → asciiSpace c1 = false ∧ space2 c1 c2 = false.
Proof.
  unfold space3, space2, asciiSpace. intros H.
  assert (N_of_ascii c1 = 225 ∨ N_of_ascii c1 = 226 ∨ N_of_ascii c1 = 227)%N
    as Hc.
  { repeat (apply orb_prop in H as [H|H]);
      repeat (apply andb_prop in H as [H ?]); apply N.eqb_eq in H; auto. }
  destruct Hc as [-> | [-> | ->]]; done.
Qed.

Lemma TrimLeftSpace_rune r s :
  SpaceRune r → TrimLeftSpace (r +:+ s) = TrimLeftSpace s.
Proof.
  destruct 1 as [c H|c1 c2 H|c1 c2 c3 H]; simpl.
  - by rewrite H.
  - by rewrite (asciiSpace_not_lead _ _ H), H.
  - destruct (space3_lead _ _ _ H) as [-> ->]. by rewrite H.
Qed.

Lemma TrimSpace_whitespace s : WhitespaceOnly s → TrimSpace s = "".
Proof.
  intros Hs. unfold TrimSpace.
  assert (TrimLeftSpace s = "") as ->; [|done].
  induction Hs as [|r s Hr _ IH]; [done|].
  by rewrite TrimLeftSpace_rune.
Qed.

(** *** What [TrimSpace] leaves starts with no space *)

Lemma string_length_ind (P : string → Prop) :
  (∀ s, (∀ t, (String.length t < String.length s)%nat → P t) → P s) →
  ∀ s, P s.
Proof.
  intros Hstep s. remember (String.length s) as n eqn:Hn.
  revert s Hn. induction n as [n IH] using lt_wf_ind.
  intros s ->. apply Hstep. intros t Ht. by apply (IH _ Ht).
Qed.

Lemma append_assoc a b c : (a +:+ b) +:+ c = a +:+ (b +:+ c).
Proof.
  induction a as [|x a IH]; [done|].
  change (String x ((a +:+ b) +:+ c) = String x (a +:+ (b +:+ c))).
  by rewrite IH.
Qed.

Lemma append_nil_r a : a +:+ "" = a.
Proof.
  induction a as [|x a IH]; [done|].
  change (String x (a +:+ "") = String x a). by rewrite IH.
Qed.

Lemma TrimLeftSpace_head s c r :
  TrimLeftSpace s = String c r → asciiSpace c = false.
Proof.
  induction s as [s IH] using string_length_ind.
  destruct s as [|c1 r1]; [done|].
  change (TrimLeftSpace (String c1 r1)) with
    (if asciiSpace c1 then TrimLeftSpace r1 else
     match r1 with
     | "" => String c1 r1
     | String c2 r2 =>
         if space2 c1 c2 then TrimLeftSpace r2 else
         match r2 with
         | "" => String c1 r1
         | String c3 r3 =>
             if space3 c1 c2 c3 then TrimLeftSpace r3 else String c1 r1
         end
     end).
  destruct (asciiSpace c1) eqn:H1; [apply IH; cbn [String.length]; lia|].
  destruct r1 as [|c2 r2]; [by intros [= <- <-]|].
  destruct (space2 c1 c2); [apply IH; cbn [String.length]; lia|].
  destruct r2 as [|c3 r3]; [by intros [= <- <-]|].
  destruct (space3 c1 c2 c3); [apply IH; cbn [String.length]; lia|].
  by intros [= <- <-].
Qed.

Lemma TrimLeftSpaceRev_suffix s :
  ∃ pre, s = pre +:+ TrimLeftSpaceRev s.
Proof.
  induction s as [s IH] using string_length_ind.
  assert (∀ pre t, (String.length t < String.length s)%nat →
                   s = pre +:+ t →
                   ∃ pre', s = pre' +:+ TrimLeftSpaceRev t) as Hrec.
  { intros pre t Hlt ->. destruct (IH t Hlt) as [pre' Hpre'].
    exists (pre +:+ pre'). rewrite append_assoc. by rewrite <- Hpre'. }
  destruct s as [|c1 r1]; [by exists ""|].
  change (TrimLeftSpaceRev (String c1 r1)) with
    (if asciiSpace c1 then TrimLeftSpaceRev r1 else
     match r1 with
     | "" => String c1 r1
     | String c2 r2 =>
         if space2 c2 c1 then TrimLeftSpaceRev r2 else
         match r2 with
         | "" => String c1 r1
         | String c3 r3 =>
             if space3 c3 c2 c1 then TrimLeftSpaceRev r3 else String c1 r1
         end
     end).
  destruct (asciiSpace c1).
  { apply (Hrec (String c1 "")); [cbn [String.length]; lia|done]. }
  destruct r1 as [|c2 r2]; [by exists ""|].
  destruct (space2 c2 c1).
  { apply (Hrec (String c1 (String c2 ""))); [cbn [String.length]; lia|done]. }
  destruct r2 as [|c3 r3]; [by exists ""|].
  destruct (space3 c3 c2 c1); [|by exists ""].
  apply (Hrec (String c1 (String c2 (String c3 ""))));
    [cbn [String.length]; lia|done].
Qed.

Lemma rev_app_app a b c :
  String.rev_app (a +:+ b) c = String.rev_app b (String.rev_app a c).
Proof. revert c. induction a as [|x a IH]; intros c; [done|]. apply IH. Qed.

Lemma rev_app_rev_app a b c :
  String.rev_app (String.rev_app a b) c = String.rev_app b (a +:+ c).
Proof.
  revert b c. induction a as [|x a IH]; intros b c; [done|].
  cbn [String.rev_app]. by rewrite IH.
Qed.

Lemma rev_app_append a b : String.rev_app a b = String.rev a +:+ b.
Proof.
  unfold String.rev. revert b. induction a as [|x a IH]; intros b; [done|].
  cbn [String.rev_app]. rewrite IH, (IH (String x "")).
  by rewrite append_assoc.
Qed.

Lemma TrimRightSpace_prefix s : ∃ suf, s = TrimRightSpace s +:+ suf.
Proof.
  unfold TrimRightSpace.
  destruct (TrimLeftSpaceRev_suffix (String.rev s)) as [pre Hpre].
  exists (String.rev pre).
  assert (String.rev (String.rev s) = s) as Hrr.
  { unfold String.rev. rewrite rev_app_rev_app. cbn [String.rev_app].
    apply append_nil_r. }
  rewrite <- Hrr at 1. rewrite Hpre at 1.
  unfold String.rev at 1. rewrite rev_app_app. apply rev_app_append.
Qed.

Lemma TrimSpace_head s c r : TrimSpace s = String c r → asciiSpace c = false.
Proof.
  unfold TrimSpace. intros H.
  destruct (TrimRightSpace_prefix (TrimLeftSpace s)) as [suf Hsuf].
  rewrite H in Hsuf. by apply TrimLeftSpace_head in Hsuf.
Qed.

(** The name of a clause is empty exactly when the trimmed clause is. *)
Lemma before_space_empty p :
  before " " (TrimSpace p) = "" ↔ TrimSpace p = "".
Proof.
  split; [|by intros ->].
  destruct (TrimSpace p) as [|c r] eqn:Hp; [done|].
  apply TrimSpace_head in Hp. cbn [before].
  destruct (Ascii.eqb_spec c " ") as [->|_]; done.
Qed.

End Parser.

(** ** Properties of the resolver *)

Section Resolver.
Variable w : World.
Variable dir : string.

(** Membership in lists built with [::] and [++]. *)
Local Ltac in_list :=
  rewrite ?elem_of_app, ?elem_of_cons, ?elem_of_nil in *;
  solve [intuition (subst; auto; congruence)].

Lemma fetches_app evs1 evs2 :
  fetches (evs1 ++ evs2) = fetches evs1 ++ fetches evs2.
Proof. apply omap_app. Qed.

(** The ways in which a call of [download] returns. *)
Lemma download_cases fuel pkg done r :
  download w (S fuel) pkg dir done = Some r →
  (is_Some (done !! pkg) ∧ r = (None, done, []))
  ∨ (done !! pkg = None ∧
     ∃ err evs, fetch w dir pkg = inl err ∧ r = (Some err, done, evs) ∧
                Forall (fun ev => produces ev = false) evs ∧
                (fetches evs = [] ∨
                 fetches evs = [pkg] ∧ is_Some (pkg_dir w pkg)))
  ∨ (done !! pkg = None ∧
     ∃ d evs, fetch w dir pkg = inr d ∧ fetches evs = [pkg] ∧
       Forall (fun ev => produces ev = false) evs ∧
       ((depends w pkg = None ∧
         ∃ err, r = (Some err, <[pkg:=d]> done, evs))
        ∨ (∃ deps e done' evs',
             depends w pkg = Some deps ∧
             for_each (fun x => download w fuel x dir) deps (<[pkg:=d]> done)
             = Some (e, done', evs') ∧
             r = (e, done', evs ++ evs')))).
Proof.
  intros H. cbn [download] in H. unfold fetch, depends.
  destruct (done !! pkg) eqn:Hd; [left; simplify_eq; eauto|].
  right.
  destruct (pkg_dir w pkg) as [tdir|];
    [|left; simplify_eq; split; [done|]; eexists _, _;
      repeat split; [repeat constructor|by left]].
  destruct (apt_get w pkg); cbn [negb] in *;
    [|left; simplify_eq; split; [done|]; eexists _, _;
      repeat split; [repeat constructor|right; eauto]].
  destruct (glob_failed w pkg);
    [left; destruct (glob_matches w pkg) as [|? [|? ?]]; simplify_eq;
     (split; [done|]; eexists _, _;
      repeat split; [repeat constructor|right; eauto])|].
  destruct (glob_matches w pkg) as [|debName [|? ?]];
    [left; simplify_eq; split; [done|]; eexists _, _;
     repeat split; [repeat constructor|right; eauto]
    | |left; simplify_eq; split; [done|]; eexists _, _;
       repeat split; [repeat constructor|right; eauto]].
  destruct (dpkg_extract w pkg); cbn [negb] in *;
    [|left; simplify_eq; split; [done|]; eexists _, _;
      repeat split; [repeat constructor|right; eauto]].
  destruct (output (dpkg_field w pkg "Architecture")) as [arch|];
    [|left; simplify_eq; split; [done|]; eexists _, _;
      repeat split; [repeat constructor|right; eauto]].
  destruct (output (dpkg_field w pkg "Version")) as [ver|];
    [|left; simplify_eq; split; [done|]; eexists _, _;
      repeat split; [repeat constructor|right; eauto]].
  right. split; [done|].
  eexists _, [EvTempDir dir "pkg"; EvChdir tdir;
              EvRun (apt_get_download pkg); EvGlob (Join tdir "*.deb");
              EvRun (dpkg_deb_x debName (Join tdir "out"));
              EvOutput (dpkg_deb_f debName "Architecture");
              EvOutput (dpkg_deb_f debName "Version");
              EvOutput (dpkg_deb_f debName "Depends")].
  split; [done|]. split; [done|]. split; [repeat constructor|].
  destruct (output (dpkg_field w pkg "Depends")) as [out|]; cbn [mbind option_bind].
  - destruct (parseDeps out) as [deps|].
    + destruct (for_each _ deps _) as [[[e done'] evs']|] eqn:Hloop; [|done].
      simplify_eq. right. eauto 10.
    + simplify_eq. left. eauto.
  - simplify_eq. left. eauto.
Qed.

Lemma fetched_inl pkg err : fetch w dir pkg = inl err → fetched w dir pkg = None.
Proof. unfold fetched. by intros ->. Qed.

Lemma fetched_inr pkg d : fetch w dir pkg = inr d → fetched w dir pkg = Some d.
Proof. unfold fetched. by intros ->. Qed.

Lemma fetch_inr_pkg_dir pkg d :
  fetch w dir pkg = inr d → is_Some (pkg_dir w pkg).
Proof. unfold fetch. by destruct (pkg_dir w pkg). Qed.

Lemma fetched_None pkg :
  fetched w dir pkg = None → ∃ err, fetch w dir pkg = inl err.
Proof. unfold fetched. destruct (fetch w dir pkg); naive_solver. Qed.

(** A run never changes or removes an entry. *)
Lemma resolved_mono targets done e done' evs :
  resolved w dir targets done (e, done', evs) →
  ∀ p d, done !! p = Some d → done' !! p = Some d.
Proof. intros (_ & _ & HB & _) p d Hp. by rewrite HB, Hp. Qed.

(** A run that fetched nothing. *)
Lemma resolved_idle targets done e evs :
  fetches evs = [] →
  (e = None → ∀ t, t ∈ targets → is_Some (done !! t)) →
  resolved w dir targets done (e, done, evs).
Proof.
  intros HF Ht. unfold resolved. rewrite HF.
  split; [constructor|].
  split; [by intros ? ?%elem_of_nil|].
  split.
  { intros p. destruct (done !! p); [done|].
    by rewrite decide_False by apply not_elem_of_nil. }
  split; [by intros ? ? ?%elem_of_nil|].
  intros He. split; [by apply Ht|]. by intros ? ?%elem_of_nil.
Qed.

Lemma resolved_present pkg done :
  is_Some (done !! pkg) → resolved w dir [pkg] done (None, done, []).
Proof.
  intros Hp. apply resolved_idle; [done|].
  by intros _ t ->%list_elem_of_singleton.
Qed.

Lemma resolved_stopped pkg done err evs :
  done !! pkg = None → fetch w dir pkg = inl err →
  fetches evs = [] ∨ fetches evs = [pkg] ∧ is_Some (pkg_dir w pkg) →
  resolved w dir [pkg] done (Some err, done, evs).
Proof.
  intros Hp Hf HF. unfold resolved.
  assert (∀ p, p ∈ fetches evs → p = pkg ∧ is_Some (pkg_dir w pkg)) as Hin.
  { intros p. destruct HF as [HF|[HF ?]]; rewrite HF; [by intros ?%elem_of_nil|].
    by intros ->%list_elem_of_singleton. }
  split; [destruct HF as [HF|[HF ?]]; rewrite HF; [constructor|apply NoDup_singleton]|].
  split.
  { intros p [-> ?]%Hin. split; [done|]. split; [done|].
    exists pkg. split; [in_list|constructor]. }
  split.
  { intros p. destruct (done !! p) eqn:Hd; [done|].
    case_decide as Hc; [|done]. apply Hin in Hc as [-> _].
    by rewrite (fetched_inl _ _ Hf). }
  split; [|done].
  intros p err' [-> _]%Hin. congruence.
Qed.

Lemma resolved_stored pkg done d err evs :
  done !! pkg = None → fetch w dir pkg = inr d → fetches evs = [pkg] →
  resolved w dir [pkg] done (Some err, <[pkg:=d]> done, evs).
Proof.
  intros Hp Hf HF. unfold resolved. rewrite HF.
  split; [apply NoDup_singleton|]. split.
  { intros p ->%list_elem_of_singleton. split; [done|].
    split; [by eapply fetch_inr_pkg_dir|].
    exists pkg. split; [in_list|constructor]. }
  split.
  { intros p. destruct (decide (p = pkg)) as [->|Hne].
    - rewrite lookup_insert_eq, Hp.
      rewrite (decide_True (P := pkg ∈ [pkg])) by in_list.
      by rewrite (fetched_inr _ _ Hf).
    - rewrite lookup_insert_ne by done. destruct (done !! p); [done|].
      by rewrite (decide_False (P := p ∈ [pkg])) by in_list. }
  split; [|done].
  intros p err' ->%list_elem_of_singleton. congruence.
Qed.

(** Two runs one after the other, the first without error. *)
Lemma resolved_seq t1 t2 done done1 evs1 e done2 evs2 :
  resolved w dir t1 done (None, done1, evs1) →
  resolved w dir t2 done1 (e, done2, evs2) →
  resolved w dir (t1 ++ t2) done (e, done2, evs1 ++ evs2).
Proof.
  intros H1 H2.
  pose proof (resolved_mono _ _ _ _ _ H1) as Hm1.
  pose proof (resolved_mono _ _ _ _ _ H2) as Hm2.
  destruct H1 as (HN1 & HA1 & HB1 & HE1 & HC1).
  destruct H2 as (HN2 & HA2 & HB2 & HE2 & HC2).
  destruct (HC1 eq_refl) as [HT1 HD1].
  assert (∀ p, p ∈ fetches evs1 → is_Some (done1 !! p)) as Hin1.
  { intros p Hp. rewrite HB1. destruct (HA1 p Hp) as [-> _].
    rewrite decide_True by done.
    destruct (fetched w dir p) eqn:Hf; [done|].
    apply fetched_None in Hf as [err Hf]. by specialize (HE1 p err Hp Hf). }
  unfold resolved. rewrite fetches_app.
  split.
  { apply NoDup_app. split; [done|]. split; [|done].
    intros p Hp1 Hp2. destruct (HA2 p Hp2) as [Hnone _].
    destruct (Hin1 p Hp1) as [? ?]. congruence. }
  split.
  { intros p [Hp|Hp]%elem_of_app.
    - destruct (HA1 p Hp) as (? & ? & t & ? & ?). split; [done|].
      split; [done|]. exists t. split; [in_list|done].
    - destruct (HA2 p Hp) as (Hnone & ? & t & ? & ?). split; [|split; [done|]].
      + destruct (done !! p) eqn:Hd; [|done]. apply Hm1 in Hd. congruence.
      + exists t. split; [in_list|done]. }
  split.
  { intros p. rewrite HB2, HB1. destruct (done !! p); [done|].
    destruct (decide (p ∈ fetches evs1)) as [Hp|Hp],
             (decide (p ∈ fetches evs2)) as [Hp2|Hp2],
             (decide (p ∈ fetches evs1 ++ fetches evs2)) as [Hq|Hq];
      try (exfalso; in_list); try done;
      by destruct (fetched w dir p). }
  split.
  { intros p err [Hp|Hp]%elem_of_app Hf; [|by eapply HE2].
    by specialize (HE1 p err Hp Hf). }
  intros He. destruct (HC2 He) as [HT2 HD2]. split.
  - intros t [Ht|Ht]%elem_of_app; [|by apply HT2].
    destruct (HT1 t Ht) as [d Hd]. exists d. by apply Hm2.
  - intros p [Hp|Hp]%elem_of_app; [|by apply HD2].
    destruct (HD1 p Hp) as (deps & ? & Hdeps). exists deps. split; [done|].
    intros d' Hd'. destruct (Hdeps d' Hd') as [x Hx]. exists x. by apply Hm2.
Qed.

(** The loop over a list of names, when its body does what [resolved]
    says for one name. *)
Lemma for_each_resolved (f : string → gmap string deb → option result) :
  (∀ x done r, f x done = Some r → resolved w dir [x] done r) →
  ∀ l done r, for_each f l done = Some r → resolved w dir l done r.
Proof.
  intros Hf l. induction l as [|x l IH]; intros done r H; simpl in H.
  - simplify_eq. apply resolved_idle; [done|]. by intros _ ? ?%elem_of_nil.
  - destruct (f x done) as [[[[err|] done1] evs1]|] eqn:Hx; [| |done].
    + simplify_eq. apply Hf in Hx.
      destruct Hx as (HN & HA & HB & HE & HC).
      split; [done|]. split; [|done].
      intros p Hp. destruct (HA p Hp) as (? & ? & t & ? & ?).
      split; [done|]. split; [done|]. exists t. split; [in_list|done].
    + destruct (for_each f l done1) as [[[e done2] evs2]|] eqn:Hl; [|done].
      simplify_eq. apply Hf in Hx. apply IH in Hl.
      by apply (resolved_seq [x] l _ _ _ _ _ _ Hx Hl).
Qed.

(** [download] does what [resolved] says. *)
Lemma download_resolved fuel :
  ∀ pkg done r,
    download w fuel pkg dir done = Some r → resolved w dir [pkg] done r.
Proof.
  induction fuel as [|fuel IH]; [done|]. intros pkg done r H.
  apply download_cases in H
    as [[Hp ->]|[(Hp & err & evs & Hf & -> & _ & HF)
                |(Hp & d & evs & Hf & HF & _ & H)]].
  - by apply resolved_present.
  - by apply resolved_stopped.
  - destruct H as [[_ [err ->]]|(deps & e & done' & evs' & Hdeps & Hloop & ->)].
    { by apply resolved_stored. }
    apply (for_each_resolved _ IH) in Hloop.
    pose proof (resolved_mono _ _ _ _ _ Hloop) as Hm.
    destruct Hloop as (HN & HA & HB & HE & HC).
    assert (∀ p, p ∈ fetches evs' → p ≠ pkg) as Hne.
    { intros p Hin ->. destruct (HA pkg Hin) as [Hnone _].
      by rewrite lookup_insert_eq in Hnone. }
    unfold resolved. rewrite fetches_app, HF. split.
    { apply NoDup_cons. split; [|done]. intros Hin. by apply (Hne pkg). }
    split.
    { intros p [->|Hin]%elem_of_cons.
      - split; [done|]. split; [by eapply fetch_inr_pkg_dir|].
        exists pkg. split; [in_list|constructor].
      - destruct (HA p Hin) as (Hnone & ? & t & Ht & Hr).
        split; [|split; [done|]].
        + by rewrite lookup_insert_ne in Hnone by (symmetry; by apply Hne).
        + exists pkg. split; [in_list|]. by eapply reaches_step. }
    split.
    { intros p. rewrite HB. cbn [app].
      destruct (decide (p = pkg)) as [->|Hpne].
      - rewrite lookup_insert_eq, Hp.
        rewrite (decide_True (P := pkg ∈ pkg :: fetches evs')) by in_list.
        by rewrite (fetched_inr _ _ Hf).
      - rewrite lookup_insert_ne by done. destruct (done !! p); [done|].
        destruct (decide (p ∈ fetches evs')),
                 (decide (p ∈ pkg :: fetches evs'));
          try (exfalso; in_list); done. }
    split.
    { intros p err [->|Hin]%elem_of_cons Hf'; [congruence|by eapply HE]. }
    intros He. destruct (HC He) as [HT HD]. split.
    + intros t ->%list_elem_of_singleton. exists d. apply Hm.
      by rewrite lookup_insert_eq.
    + intros p [->|Hin]%elem_of_cons; [|by apply HD].
      exists deps. split; [done|]. apply HT.
Qed.

(** *** More fuel changes nothing *)

Lemma for_each_ext_Some (f g : string → gmap string deb → option result) :
  (∀ x done r, f x done = Some r → g x done = Some r) →
  ∀ l done r, for_each f l done = Some r → for_each g l done = Some r.
Proof.
  intros Hfg l. induction l as [|x l IH]; intros m r H; simpl in *; [done|].
  destruct (f x m) as [[[[err|] done1] evs1]|] eqn:Hx; [| |done].
  - by rewrite (Hfg _ _ _ Hx).
  - rewrite (Hfg _ _ _ Hx).
    destruct (for_each f l done1) as [[[e done2] evs2]|] eqn:Hl; [|done].
    by rewrite (IH _ _ Hl).
Qed.

Lemma download_fuel_step fuel fuel' :
  (∀ pkg done r,
     download w fuel pkg dir done = Some r →
     download w fuel' pkg dir done = Some r) →
  ∀ pkg done r,
    download w (S fuel) pkg dir done = Some r →
    download w (S fuel') pkg dir done = Some r.
Proof.
  intros IH pkg done r H.
  cbn [download] in H. cbn [download].
  destruct (done !! pkg); [done|].
  destruct (pkg_dir w pkg) as [tdir|]; [|done].
  destruct (negb (apt_get w pkg)); [done|].
  destruct (glob_failed w pkg); [done|].
  destruct (glob_matches w pkg) as [|debName [|? ?]]; [done| |done].
  destruct (negb (dpkg_extract w pkg)); [done|].
  destruct (output (dpkg_field w pkg "Architecture")) as [arch|]; [|done].
  destruct (output (dpkg_field w pkg "Version")) as [ver|]; [|done].
  destruct (output (dpkg_field w pkg "Depends")) as [out|]; [|done].
  destruct (parseDeps out) as [deps|]; [|done].
  destruct (for_each _ deps _) as [[[e done'] evs']|] eqn:Hloop; [|done].
  by rewrite (for_each_ext_Some (fun d => download w fuel d dir)
                (fun d => download w fuel' d dir) IH _ _ _ Hloop).
Qed.

Lemma download_fuel_S fuel :
  ∀ pkg done r,
    download w fuel pkg dir done = Some r →
    download w (S fuel) pkg dir done = Some r.
Proof.
  induction fuel as [|fuel IH]; [done|]. by apply download_fuel_step.
Qed.

Lemma download_fuel_le (fuel fuel' : nat) pkg done r :
  (fuel ≤ fuel')%nat →
  download w fuel pkg dir done = Some r →
  download w fuel' pkg dir done = Some r.
Proof.
  induction 1 as [|fuel' _ IH]; [done|].
  intros H. by apply download_fuel_S, IH.
Qed.

(** *** Enough fuel gives a result *)

Lemma download_progress fuel pkg done :
  (∀ d deps, done !! pkg = None → fetch w dir pkg = inr d →
             depends w pkg = Some deps →
             is_Some (for_each (fun x => download w fuel x dir) deps
                               (<[pkg:=d]> done))) →
  is_Some (download w (S fuel) pkg dir done).
Proof.
  intros Hloop. cbn [download].
  unfold fetch, depends in Hloop.
  destruct (done !! pkg); [done|].
  destruct (pkg_dir w pkg) as [tdir|]; [|done].
  destruct (negb (apt_get w pkg)); [done|].
  destruct (glob_failed w pkg); [by destruct (glob_matches w pkg) as [|? [|? ?]]|].
  destruct (glob_matches w pkg) as [|debName [|? ?]]; [done| |done].
  destruct (negb (dpkg_extract w pkg)); [done|].
  destruct (output (dpkg_field w pkg "Architecture")) as [arch|]; [|done].
  destruct (output (dpkg_field w pkg "Version")) as [ver|]; [|done].
  destruct (output (dpkg_field w pkg "Depends")) as [out|]; [|done].
  cbn [mbind option_bind] in Hloop.
  destruct (parseDeps out) as [deps|]; [|done].
  destruct (Hloop _ deps eq_refl eq_refl eq_refl) as [[[e done'] evs'] ->].
  done.
Qed.

Lemma for_each_total (f : string → gmap string deb → option result)
    (P : gmap string deb → Prop) :
  (∀ x done, P done →
     ∃ e done' evs, f x done = Some (e, done', evs) ∧ P done') →
  ∀ l done, P done → is_Some (for_each f l done).
Proof.
  intros Hf l. induction l as [|x l IH]; intros m HP; simpl; [done|].
  destruct (Hf x m HP) as ([err|] & done1 & evs1 & -> & HP1); [done|].
  by destruct (IH done1 HP1) as [[[e done2] evs2] ->].
Qed.

Lemma download_dom_mono fuel pkg done e done' evs :
  download w fuel pkg dir done = Some (e, done', evs) →
  dom done ⊆ dom done'.
Proof.
  intros H%download_resolved. intros p [d Hd]%elem_of_dom.
  apply elem_of_dom. exists d. by eapply resolved_mono.
Qed.

(** With a finite set [U] that holds every package that can be fetched,
    a call returns as soon as [fuel] exceeds the number of packages of
    [U] that are not in the map yet. *)
Lemma download_total (U : gset string) :
  (∀ p, is_Some (fetched w dir p) → p ∈ U) →
  ∀ fuel pkg done,
    (size (U ∖ dom done) < fuel)%nat → is_Some (download w fuel pkg dir done).
Proof.
  intros HU fuel. induction fuel as [|fuel IH]; intros pkg m Hsz; [lia|].
  rename m into done.
  apply download_progress. intros d deps Hnone Hf Hdeps.
  assert (size (U ∖ dom (<[pkg:=d]> done)) < fuel)%nat as Hsz1.
  { assert (U ∖ dom (<[pkg:=d]> done) ⊂ U ∖ dom done) as Hsub.
    { rewrite dom_insert_L. apply not_elem_of_dom in Hnone.
      assert (pkg ∈ U) by (apply HU; rewrite (fetched_inr _ _ Hf); eauto).
      set_solver. }
    apply subset_size in Hsub. lia. }
  apply (for_each_total _ (fun m => (size (U ∖ dom m) < fuel)%nat)); [|done].
  intros x m Hm. destruct (IH x m Hm) as [[[e m'] evs] Hx].
  exists e, m', evs. split; [done|].
  apply download_dom_mono in Hx.
  assert (U ∖ dom m' ⊆ U ∖ dom m) as Hsub by set_solver.
  apply subseteq_size in Hsub. lia.
Qed.

(** *** The resolver writes no manifest and builds no image *)

Lemma for_each_quiet (f : string → gmap string deb → option result) :
  (∀ x done e done' evs,
     f x done = Some (e, done', evs) →
     Forall (fun ev => produces ev = false) evs) →
  ∀ l done e done' evs,
    for_each f l done = Some (e, done', evs) →
    Forall (fun ev => produces ev = false) evs.
Proof.
  intros Hf l. induction l as [|x l IH]; intros m e m' evs H; simpl in H.
  - simplify_eq. constructor.
  - destruct (f x m) as [[[[err|] m1] evs1]|] eqn:Hx; [| |done].
    + simplify_eq. by eapply Hf.
    + destruct (for_each f l m1) as [[[e2 m2] evs2]|] eqn:Hl; [|done].
      simplify_eq. apply Forall_app. split; [by eapply Hf|by eapply IH].
Qed.

Lemma download_quiet fuel :
  ∀ pkg done e done' evs,
    download w fuel pkg dir done = Some (e, done', evs) →
    Forall (fun ev => produces ev = false) evs.
Proof.
  induction fuel as [|fuel IH]; [done|]. intros pkg m e m' evs H.
  apply download_cases in H
    as [[_ H]|[(_ & err & evs0 & _ & H & Hq & _)
              |(_ & d & evs0 & _ & _ & Hq & H)]].
  - simplify_eq. constructor.
  - by simplify_eq.
  - destruct H as [[_ [err H]]|(deps & e1 & m1 & evs1 & _ & Hloop & H)].
    + by simplify_eq.
    + simplify_eq. apply Forall_app. split; [done|].
      by eapply (for_each_quiet _ IH).
Qed.

(** *** A name that is present is skipped *)

Lemma download_present fuel pkg done :
  is_Some (done !! pkg) →
  download w (S fuel) pkg dir done = Some (None, done, []).
Proof. intros [d Hd]. cbn [download]. by rewrite Hd. Qed.

Lemma for_each_uniq_from fuel :
  ∀ l seen done,
    seen ⊆ dom done →
    for_each (fun x => download w (S fuel) x dir) (uniq_from seen l) done
    = for_each (fun x => download w (S fuel) x dir) l done.
Proof.
  intros l. induction l as [|x l IH]; intros seen m Hseen; [done|].
  cbn [uniq_from]. destruct (decide (x ∈ seen)) as [Hx|Hx].
  - rewrite IH by done. cbn [for_each].
    rewrite download_present by (apply elem_of_dom; set_solver).
    by destruct (for_each _ l m) as [[[e m'] evs]|].
  - cbn [for_each].
    destruct (download w (S fuel) x dir m) as [[[[err|] m1] evs1]|] eqn:Hd;
      [done| |done].
    rewrite IH; [done|].
    pose proof (download_dom_mono _ _ _ _ _ _ Hd) as Hmono.
    apply download_resolved in Hd. destruct Hd as (_ & _ & _ & _ & HC).
    destruct (HC eq_refl) as [HT _].
    assert (x ∈ dom m1) by (apply elem_of_dom, HT; by left).
    set_solver.
Qed.

End Resolver.

(** ** Properties of the assembler *)

Section Assembler.
Variable w : World.

Lemma mapM_cons {A B} (f : A → option B) x l :
  mapM f (x :: l) = y ← f x; k ← mapM f l; Some (y :: k).
Proof. reflexivity. Qed.

Lemma fetches_copies rootfs ds : fetches (copies rootfs ds) = [].
Proof. induction ds as [|d ds IH]; [done|]. exact IH. Qed.

(** Every way in which the loop of [createACI] returns: the packages
    before the one that stopped it were copied and annotated. *)
Lemma merge_cases rootfs ds m e m' evs :
  merge w rootfs ds m = (e, m', evs) →
  Other m' = Other m ∧
  ∃ ds1 ds2 anns,
    ds = ds1 ++ ds2 ∧
    Forall (fun d => cp w d = true) ds1 ∧
    mapM (annotation w) ds1 = Some anns ∧
    Annotations m' = Annotations m ++ anns ∧
    ((e = None ∧ ds2 = [] ∧ evs = copies rootfs ds1)
     ∨ (∃ d ds3 err,
          ds2 = d :: ds3 ∧ e = Some err ∧
          evs = copies rootfs (ds1 ++ [d]) ∧
          (cp w d = false ∧ err = RunError (cp_a d rootfs)
           ∨ cp w d = true ∧ annotation w d = None))).
Proof.
  revert m e m' evs.
  induction ds as [|d ds IH]; intros m e m' evs H; cbn [merge] in H.
  { simplify_eq. split; [done|]. exists [], [], [].
    split; [done|]. split; [constructor|]. split; [done|].
    split; [by rewrite app_nil_r|]. by left. }
  assert (∀ err,
    cp w d = false ∧ err = RunError (cp_a d rootfs)
    ∨ cp w d = true ∧ annotation w d = None →
    Other m = Other m ∧
    ∃ ds1 ds2 anns,
      d :: ds = ds1 ++ ds2 ∧
      Forall (fun d => cp w d = true) ds1 ∧
      mapM (annotation w) ds1 = Some anns ∧
      Annotations m = Annotations m ++ anns ∧
      ((Some err = None ∧ ds2 = [] ∧ [EvRun (cp_a d rootfs)] = copies rootfs ds1)
       ∨ (∃ d' ds3 err',
            ds2 = d' :: ds3 ∧ Some err = Some err' ∧
            [EvRun (cp_a d rootfs)] = copies rootfs (ds1 ++ [d']) ∧
            (cp w d' = false ∧ err' = RunError (cp_a d' rootfs)
             ∨ cp w d' = true ∧ annotation w d' = None)))) as Hstop.
  { intros err Hwhy. split; [done|]. exists [], (d :: ds), [].
    split; [done|]. split; [constructor|]. split; [done|].
    split; [by rewrite app_nil_r|]. right. exists d, ds, err. eauto. }
  destruct (cp w d) eqn:Hcp; cbn [negb] in H.
  2:{ simplify_eq. apply Hstop. by left. }
  destruct (SanitizeACIdentifier w _) as [i|] eqn:Hs.
  2:{ simplify_eq. apply Hstop. right. split; [done|].
      unfold annotation. by rewrite Hs. }
  destruct (NewACIdentifier w i) as [a|] eqn:Hn.
  2:{ simplify_eq. apply Hstop. right. split; [done|].
      unfold annotation. rewrite Hs. simpl. by rewrite Hn. }
  clear Hstop.
  destruct (merge w rootfs ds _) as [[e1 m1] evs1] eqn:Hrec.
  simplify_eq. apply IH in Hrec.
  destruct Hrec as (Ho & ds1 & ds2 & anns & -> & Hall & Hanns & HA & Hend).
  split; [done|].
  exists (d :: ds1), ds2,
    ({| AnnotationName := a;
        AnnotationValue := Arch d +:+ "/" +:+ Version d |} :: anns).
  split; [done|]. split; [by constructor|]. split.
  { rewrite mapM_cons, Hanns. unfold annotation. rewrite Hs. simpl.
    by rewrite Hn. }
  split.
  { rewrite HA. cbn [Annotations]. unfold Annotations_Set.
    by rewrite <- app_assoc. }
  destruct Hend as [(-> & -> & ->)|(d' & ds3 & err & -> & -> & -> & Hwhy)].
  - by left.
  - right. exists d', ds3, err. eauto 10.
Qed.

(** The loop stops at the first copy that fails. *)
Lemma merge_copy_fails rootfs pre d post m anns :
  Forall (fun x => cp w x = true) pre →
  mapM (annotation w) pre = Some anns →
  cp w d = false →
  merge w rootfs (pre ++ d :: post) m
  = (Some (RunError (cp_a d rootfs)),
     {| Other := Other m; Annotations := Annotations m ++ anns |},
     copies rootfs pre ++ [EvRun (cp_a d rootfs)]).
Proof.
  intros Hpre. revert m anns.
  induction Hpre as [|x pre Hx _ IH]; intros m anns Hanns Hd.
  - injection Hanns as <-. cbn [app merge]. rewrite Hd. cbn [negb].
    rewrite app_nil_r. by destruct m.
  - rewrite mapM_cons in Hanns.
    destruct (mapM (annotation w) pre) as [anns'|] eqn:Hpre';
      [|by destruct (annotation w x)].
    unfold annotation in Hanns.
    cbn [app merge]. rewrite Hx. cbn [negb].
    destruct (SanitizeACIdentifier w _) as [i|]; [|done]. simpl in Hanns.
    destruct (NewACIdentifier w i) as [a|]; [|done]. simpl in Hanns.
    simplify_eq.
    rewrite (IH _ anns' eq_refl Hd). cbn [Other Annotations].
    unfold Annotations_Set. by rewrite <- app_assoc.
Qed.

End Assembler.

(** ** Properties of a whole run *)

Section Run.
Variable w : World.
Variable dir : string.

Lemma fetched_name p d : fetched w dir p = Some d → Name d = p.
Proof.
  unfold fetched, fetch.
  destruct (pkg_dir w p); [|done].
  destruct (negb (apt_get w p)); [done|].
  destruct (glob_failed w p);
    [by destruct (glob_matches w p) as [|? [|? ?]]|].
  destruct (glob_matches w p) as [|? [|? ?]]; [done| |done].
  destruct (negb (dpkg_extract w p)); [done|].
  destruct (output (dpkg_field w p "Architecture")); [|done].
  destruct (output (dpkg_field w p "Version")); [|done].
  by intros [= <-].
Qed.

(** A fetch that found no archive, or more than one. *)
Lemma fetch_unexpected p :
  is_Some (pkg_dir w p) → apt_get w p = true →
  glob_failed w p = true ∨ List.length (glob_matches w p) ≠ 1%nat →
  fetch w dir p = inl (Unexpected (glob_failed w p) (glob_matches w p)).
Proof.
  intros [tdir Ht] Ha Hg. unfold fetch. rewrite Ht, Ha. cbn [negb].
  destruct (glob_failed w p);
    [by destruct (glob_matches w p) as [|? [|? ?]]|].
  destruct Hg as [|Hg]; [done|].
  by destruct (glob_matches w p) as [|? [|? ?]].
Qed.

(** After a run from the empty map without error, the map holds exactly
    the packages that were fetched, which are exactly the roots and their
    transitive dependencies, each under its own name. *)
Lemma resolved_closure roots fs evs :
  resolved w dir roots ∅ (None, fs, evs) →
  (∀ p, is_Some (fs !! p) ↔ p ∈ fetches evs) ∧
  (∀ p, is_Some (fs !! p) ↔ ∃ r, r ∈ roots ∧ reaches w r p) ∧
  (∀ p d, fs !! p = Some d → Name d = p).
Proof.
  intros (HN & HA & HB & HE & HC). destruct (HC eq_refl) as [HT HD].
  assert (∀ p, is_Some (fs !! p) ↔ p ∈ fetches evs) as Hdom.
  { intros p. rewrite HB, lookup_empty. case_decide as Hp.
    - split; [done|]. intros _.
      destruct (fetched w dir p) eqn:Hf; [done|].
      apply fetched_None in Hf as [err Hf]. by specialize (HE p err Hp Hf).
    - split; [by intros [? ?]|done]. }
  split; [done|]. split.
  - intros p. split.
    + intros Hp%Hdom. by destruct (HA p Hp) as (_ & _ & Hr).
    + intros (r & Hr & Hreach). apply HT in Hr.
      induction Hreach as [|p deps d q Hdeps Hd _ IH]; [done|].
      apply IH. apply Hdom in Hr.
      destruct (HD p Hr) as (deps' & Hdeps' & Hall).
      rewrite Hdeps in Hdeps'. injection Hdeps' as <-. by apply Hall.
  - intros p d. rewrite HB, lookup_empty. case_decide; [|done].
    apply fetched_name.
Qed.

(** What is kept of a run, whether or not it fails. *)
Lemma resolved_grows targets done e done' evs :
  resolved w dir targets done (e, done', evs) →
  done ⊆ done' ∧
  (e = None → ∀ t, t ∈ targets → is_Some (done' !! t)) ∧
  (∀ p d, p ∈ fetches evs → fetch w dir p = inr d → done' !! p = Some d).
Proof.
  intros H. pose proof (resolved_mono _ _ _ _ _ _ _ H) as Hm.
  destruct H as (HN & HA & HB & HE & HC).
  split; [|split].
  - apply map_subseteq_spec. intros p d. apply Hm.
  - intros He. by destruct (HC He).
  - intros p d Hp Hf. rewrite HB. destruct (HA p Hp) as [-> _].
    rewrite decide_True by done. by apply fetched_inr.
Qed.

Lemma for_each_fuel_le (fuel fuel' : nat) l done r :
  (fuel ≤ fuel')%nat →
  for_each (fun p => download w fuel p dir) l done = Some r →
  for_each (fun p => download w fuel' p dir) l done = Some r.
Proof.
  intros Hle. apply for_each_ext_Some. intros x m r'.
  by apply download_fuel_le.
Qed.

(** The loop over the roots returns under the same bound as a call. *)
Lemma for_each_download_total (U : gset string) :
  (∀ p, is_Some (fetched w dir p) → p ∈ U) →
  ∀ fuel l done,
    (size (U ∖ dom done) < fuel)%nat →
    is_Some (for_each (fun p => download w fuel p dir) l done).
Proof.
  intros HU fuel l m Hsz.
  apply (for_each_total _ (fun m => (size (U ∖ dom m) < fuel)%nat)); [|exact Hsz].
  intros x m0 Hm0.
  destruct (download_total w dir U HU fuel x m0 Hm0) as [[[e m'] evs] Hx].
  exists e, m', evs. split; [exact Hx|].
  apply download_dom_mono in Hx.
  assert (U ∖ dom m' ⊆ U ∖ dom m0) as Hsub by set_solver.
  apply subseteq_size in Hsub. lia.
Qed.

(** In a world made from a repository only its packages can be fetched. *)
Lemma tool_world_fetched repo matches copy p :
  is_Some (fetched (tool_world repo matches copy) dir p) →
  p ∈ dom (list_to_map (M := gmap string (string * string * string)) repo).
Proof.
  unfold fetched, fetch. cbn [pkg_dir apt_get tool_world].
  destruct (bool_decide_reflect (is_Some (control repo p "Version")))
    as [[v Hv]|_]; cbn [negb]; [|by intros [? ?]].
  intros _. unfold control in Hv. apply elem_of_dom.
  by destruct (list_to_map repo !! p).
Qed.

(** The names under which [range] yields the entries of a map whose
    entries carry their own name. *)
Lemma range_names (fs : gmap string deb) :
  (∀ p d, fs !! p = Some d → Name d = p) →
  NoDup (Name <$> range w fs) ∧
  ∀ p, p ∈ Name <$> range w fs ↔ is_Some (fs !! p).
Proof.
  intros Hname.
  assert (Name <$> range w fs ≡ₚ (map_to_list fs).*1) as Hperm.
  { rewrite (range_once w fs), <- list_fmap_compose.
    assert (Name ∘ snd <$> map_to_list fs = (map_to_list fs).*1) as ->; [|done].
    apply Forall_fmap_ext, Forall_forall.
    intros [p d] Hin%elem_of_map_to_list. by apply Hname. }
  split.
  - rewrite Hperm. apply NoDup_fst_map_to_list.
  - intros p. rewrite Hperm, list_elem_of_fmap. split.
    + intros ([q d] & -> & Hin%elem_of_map_to_list). by exists d.
    + intros [d Hd]. exists (p, d). split; [done|].
      by apply elem_of_map_to_list.
Qed.

(** [createACI] without error has copied and annotated every entry. *)
Lemma createACI_ok fs image m m' evs :
  createACI w dir fs image m = (None, m', evs) →
  Other m' = Other m ∧
  ∃ anns, mapM (annotation w) (range w fs) = Some anns ∧
          Annotations m' = Annotations m ++ anns.
Proof.
  unfold createACI. destruct (image_dir w) as [idir|]; [|done].
  destruct (merge w _ (range w fs) m) as [[[err|] m1] evs1] eqn:Hm; [done|].
  apply merge_cases in Hm
    as (Ho & ds1 & ds2 & anns & Hds & _ & Hanns & HA & Hend).
  destruct Hend as [(_ & -> & _)|(? & ? & ? & _ & ? & _)]; [|done].
  rewrite app_nil_r in Hds. subst ds1.
  destruct (MarshalJSON w m1); [|done].
  destruct (negb (write_manifest w)); [done|].
  destruct (negb (actool w)); [done|].
  intros [= <- _]. eauto.
Qed.

Lemma fetches_nil evs :
  Forall (fun ev => fetch_of ev = None) evs → fetches evs = [].
Proof.
  induction 1 as [|ev evs Hev _ IH]; [done|].
  unfold fetches in *. cbn [omap list_omap]. by rewrite Hev.
Qed.

Lemma fetches_createACI fs image m e m' evs :
  createACI w dir fs image m = (e, m', evs) → fetches evs = [].
Proof.
  unfold createACI. destruct (image_dir w) as [idir|]; [|by intros [= _ _ <-]].
  destruct (merge w _ (range w fs) m) as [[e1 m1] evs1] eqn:Hm.
  assert (Forall (fun ev => fetch_of ev = None) evs1) as Hevs1.
  { apply merge_cases in Hm as (_ & ds1 & ds2 & anns & _ & _ & _ & _ & Hend).
    destruct Hend as [(_ & _ & ->)|(? & ? & ? & _ & _ & -> & _)];
      by apply Forall_fmap, Forall_forall. }
  destruct e1 as [err|]; [|destruct (MarshalJSON w m1);
    [destruct (negb (write_manifest w)); [|destruct (negb (actool w))]|]];
    intros [= _ _ <-]; apply fetches_nil;
    repeat first [ done | apply Forall_app; split | constructor ].
Qed.

End Run.

(** ** The parser: claims C2, C3 and C9 *)

(** C2, as stated, fails: a clause is not white-space-tokenized.  In
    [tab_declaration] a tab separates the name from its version
    constraint; the specification's parser answers [libc6], [parseDeps]
    answers the clause up to its first space, tab included. *)
Lemma parseDeps_tab_counterexample :
  parseDeps tab_declaration
  = Some ["libc6" +:+ String "009" "(>="; "libssl1.1"]
  ∧ Parse_spec tab_declaration = ["libc6"; "libssl1.1"]
  ∧ parseDeps tab_declaration ≠ Some (Parse_spec tab_declaration).
Proof.
  split; [reflexivity|]. split; [reflexivity|].
  vm_compute. discriminate.
Qed.

(** C2, amended: for every declaration, [parseDeps] trims it, splits it on
    commas and returns for each clause the bytes of the trimmed clause
    before its first space character (U+0020, no other white space),
    which drops version constraints and alternatives that follow a space;
    a declaration that trims to nothing has no names.  In particular
    "libc6 (>= 2.14), libssl1.1" gives libc6 and libssl1.1, and
    "foo | bar" gives foo only. *)
Theorem parseDeps_first_space_field :
  (∀ line,
     parseDeps line =
     Some (if decide (TrimSpace line = "") then []
           else (fun clause => before " " (TrimSpace clause))
                  <$> Split (TrimSpace line) ","))
  ∧ parseDeps "libc6 (>= 2.14), libssl1.1" = Some ["libc6"; "libssl1.1"]
  ∧ parseDeps "foo | bar" = Some ["foo"].
Proof. split; [apply parseDeps_eq|]. split; reflexivity. Qed.

(** C3, as stated, fails: an empty clause is not skipped.  Parsing "a,,b"
    and "a,b," returns the empty string among the names. *)
Lemma parseDeps_empty_clause_counterexample :
  (∃ names, parseDeps "a,,b" = Some names ∧ "" ∈ names)
  ∧ (∃ names, parseDeps "a,b," = Some names ∧ "" ∈ names).
Proof.
  split.
  - exists ["a"; ""; "b"]. split; [reflexivity|]. apply list_elem_of_lookup. by exists 1%nat.
  - exists ["a"; "b"; ""]. split; [reflexivity|]. apply list_elem_of_lookup. by exists 2%nat.
Qed.

(** C3, amended: for every declaration that is not empty after trimming,
    [parseDeps] returns exactly one name per comma-separated clause, one
    more than there are commas; no clause is skipped, and the name of a
    clause is the empty string exactly when the clause is empty after
    trimming. *)
Theorem parseDeps_one_name_per_clause line :
  TrimSpace line ≠ "" →
  ∃ names,
    parseDeps line = Some names ∧
    List.length names
    = S (List.length (filter (fun c => c = ","%char)
                             (list_ascii_of_string (TrimSpace line)))) ∧
    ∀ (i : nat) clause,
      Split (TrimSpace line) "," !! i = Some clause →
      ∃ name, names !! i = Some name ∧ (name = "" ↔ TrimSpace clause = "").
Proof.
  intros Hne. rewrite parseDeps_eq, decide_False by done.
  eexists. split; [done|]. split.
  - by rewrite length_fmap, Split_length.
  - intros i clause Hi. rewrite list_lookup_fmap, Hi. eexists. split; [done|].
    apply before_space_empty.
Qed.

(** The declaration "a,,b" has three clauses and three names. *)
Lemma parseDeps_one_name_per_clause_witness :
  TrimSpace "a,,b" ≠ "" ∧
  ∃ names, parseDeps "a,,b" = Some names ∧ List.length names = 3%nat.
Proof.
  assert (TrimSpace "a,,b" ≠ "") as Hne by (vm_compute; discriminate).
  split; [exact Hne|].
  destruct (parseDeps_one_name_per_clause "a,,b" Hne) as (names & Hp & Hlen & _).
  exists names. split; [exact Hp|exact Hlen].
Defined.

(** C9: [parseDeps] returns on every input, it never panics; and a
    declaration that is empty or made of white space only has no
    names. *)
Theorem parseDeps_total :
  (∀ line, ∃ names, parseDeps line = Some names)
  ∧ (∀ line, WhitespaceOnly line → parseDeps line = Some []).
Proof.
  split.
  - intros line. rewrite parseDeps_eq. eauto.
  - intros line Hw. rewrite parseDeps_eq.
    by rewrite (TrimSpace_whitespace _ Hw), decide_True.
Qed.

(** A space followed by a tab has no names. *)
Lemma parseDeps_total_witness :
  WhitespaceOnly (" " +:+ String "009" "") ∧
  parseDeps (" " +:+ String "009" "") = Some [].
Proof.
  assert (WhitespaceOnly (" " +:+ String "009" "")) as Hw.
  { apply (WhitespaceOnly_rune " "); [by apply SpaceRune1|].
    apply (WhitespaceOnly_rune (String "009" "") ""); [by apply SpaceRune1|].
    apply WhitespaceOnly_empty. }
  split; [exact Hw|]. exact (proj2 parseDeps_total _ Hw).
Defined.

(** ** The resolver and the assembler: claims C1, C4 to C8 and C10 *)

(** C1: when resolving the roots succeeds, the closure holds exactly the
    roots and their transitive dependencies, each once and under its own
    name; each of them was fetched exactly once; and a [createACI] that
    succeeds appends exactly one annotation for each of them.  In the
    diamond, resolving A fetches A, B, D and C once each and leaves the
    four entries A, B, C and D. *)
Theorem closure_one_entry_one_annotation :
  (∀ w fuel dir roots fs evs,
     for_each (fun pkg => download w fuel pkg dir) roots ∅
     = Some (None, fs, evs) →
     (∀ p, is_Some (fs !! p) ↔ ∃ r, r ∈ roots ∧ reaches w r p) ∧
     (∀ p d, fs !! p = Some d → Name d = p) ∧
     NoDup (fetches evs) ∧
     (∀ p, p ∈ fetches evs ↔ is_Some (fs !! p)) ∧
     (∀ image m m' evs',
        createACI w dir fs image m = (None, m', evs') →
        ∃ anns,
          mapM (annotation w) (range w fs) = Some anns ∧
          Annotations m' = Annotations m ++ anns ∧
          NoDup (Name <$> range w fs) ∧
          ∀ p, p ∈ Name <$> range w fs ↔ is_Some (fs !! p)))
  ∧ (∃ evs,
       for_each (fun pkg => download (repo_world diamond) 5 pkg "/tmp/deb2aci")
                ["A"] ∅
       = Some (None, diamond_fs, evs) ∧
       size diamond_fs = 4%nat ∧
       fetches evs = ["A"; "B"; "D"; "C"]).
Proof.
  split.
  - intros w fuel dir roots fs evs H.
    pose proof (for_each_resolved w dir _ (download_resolved w dir fuel) _ _ _ H)
      as Hres.
    destruct (resolved_closure _ _ _ _ _ Hres) as (Hdom & Hreach & Hname).
    split; [done|]. split; [done|].
    split; [by destruct Hres|]. split; [by intros p; rewrite Hdom|].
    intros image m m' evs' Hc.
    apply createACI_ok in Hc as (_ & anns & Hanns & HA).
    exists anns. split; [done|]. split; [done|]. by apply range_names.
  - eexists. split; [vm_compute; reflexivity|]. split; vm_compute; reflexivity.
Qed.

(** The run on the diamond. *)
Lemma closure_one_entry_one_annotation_witness :
  ∃ fs evs,
    for_each (fun pkg => download (repo_world diamond) 5 pkg "/tmp/deb2aci")
             ["A"] ∅
    = Some (None, fs, evs) ∧
    NoDup (fetches evs) ∧
    (∀ p, p ∈ fetches evs ↔ is_Some (fs !! p)).
Proof.
  destruct (for_each (fun pkg => download (repo_world diamond) 5 pkg "/tmp/deb2aci")
                     ["A"] ∅) as [[[e fs] evs]|] eqn:H.
  - pose proof H as Hc. vm_compute in Hc. injection Hc as <- <- <-.
    eexists _, _. split; [reflexivity|].
    pose proof (proj1 closure_one_entry_one_annotation _ _ _ _ _ _ H)
      as (_ & _ & Hnodup & Hfetch & _).
    split; [exact Hnodup|exact Hfetch].
  - vm_compute in H. discriminate H.
Defined.

(** C4: whatever [createACI] returns, the manifest keeps its other
    members and its annotations as they were, those with the key of a
    resolved package included; what is new comes after them, one
    annotation for each package that was copied and annotated, in the
    order of the loop. *)
Theorem createACI_preserves_manifest w dir fs image m e m' evs :
  createACI w dir fs image m = (e, m', evs) →
  Other m' = Other m ∧
  ∃ ds anns,
    ds `prefix_of` range w fs ∧
    mapM (annotation w) ds = Some anns ∧
    Annotations m' = Annotations m ++ anns.
Proof.
  unfold createACI. destruct (image_dir w) as [idir|].
  2:{ intros [= _ <- _]. split; [done|]. exists [], [].
      split; [apply prefix_nil|]. split; [done|]. by rewrite app_nil_r. }
  destruct (merge w _ (range w fs) m) as [[e1 m1] evs1] eqn:Hm.
  apply merge_cases in Hm
    as (Ho & ds1 & ds2 & anns & Hds & _ & Hanns & HA & _).
  assert (m' = m1 → Other m' = Other m ∧
            ∃ ds anns, ds `prefix_of` range w fs ∧
                       mapM (annotation w) ds = Some anns ∧
                       Annotations m' = Annotations m ++ anns) as Hok.
  { intros ->. split; [done|]. exists ds1, anns.
    split; [by exists ds2|done]. }
  destruct e1 as [err|]; [intros [= _ <- _]; by apply Hok|].
  destruct (MarshalJSON w m1); [|intros [= _ <- _]; by apply Hok].
  destruct (negb (write_manifest w)); [intros [= _ <- _]; by apply Hok|].
  destruct (negb (actool w)); intros [= _ <- _]; by apply Hok.
Qed.

(** The base manifest already holds an annotation for D. *)
Lemma createACI_preserves_manifest_witness :
  ∃ e m' evs,
    createACI (repo_world diamond) "/tmp/deb2aci" diamond_fs "app.aci"
              base_manifest
    = (e, m', evs) ∧
    Other m' = Other base_manifest ∧
    ∃ ds anns,
      ds `prefix_of` range (repo_world diamond) diamond_fs ∧
      mapM (annotation (repo_world diamond)) ds = Some anns ∧
      Annotations m' = Annotations base_manifest ++ anns.
Proof.
  destruct (createACI (repo_world diamond) "/tmp/deb2aci" diamond_fs "app.aci"
                      base_manifest) as [[e m'] evs] eqn:H.
  exists e, m', evs. split; [reflexivity|].
  exact (createACI_preserves_manifest _ _ _ _ _ _ _ _ H).
Defined.

(** C5: a call of [download] for a name that is present returns without
    error, without an event and with the map as it was, so the record that
    was stored first stays; and resolving a list of roots gives the same
    result as resolving it with the repeated names removed. *)
Theorem download_present_is_noop :
  (∀ w fuel pkg dir (done : gmap string deb),
     is_Some (done !! pkg) →
     download w (S fuel) pkg dir done = Some (None, done, []))
  ∧ (∀ w fuel dir roots (done : gmap string deb),
       for_each (fun pkg => download w fuel pkg dir) (uniq roots) done
       = for_each (fun pkg => download w fuel pkg dir) roots done).
Proof.
  split; [intros; by apply download_present|].
  intros w [|fuel] dir roots m.
  - destruct roots as [|x roots]; [reflexivity|].
    unfold uniq. cbn [uniq_from]. by rewrite decide_False by set_solver.
  - unfold uniq. apply for_each_uniq_from. set_solver.
Qed.

(** D is present in the map of the diamond. *)
Lemma download_present_is_noop_witness :
  is_Some (diamond_fs !! "D") ∧
  download (repo_world diamond) 1 "D" "/tmp/deb2aci" diamond_fs
  = Some (None, diamond_fs, []).
Proof.
  assert (is_Some (diamond_fs !! "D")) as Hd by (vm_compute; eauto).
  split; [exact Hd|].
  exact (proj1 download_present_is_noop (repo_world diamond) 0%nat "D"
               "/tmp/deb2aci" diamond_fs Hd).
Defined.

(** C6: when the packages that can be fetched form a finite set [U],
    cycles or not, a call of [download] and the loop over the roots return
    as soon as the fuel exceeds the number of packages of [U] that are not
    in the map; more fuel gives the same result; and no package is fetched
    twice, nor fetched while it is in the map. *)
Theorem download_terminates w dir (U : gset string) :
  (∀ p, is_Some (fetched w dir p) → p ∈ U) →
  (∀ (fuel : nat) pkg (done : gmap string deb),
     (size (U ∖ dom done) < fuel)%nat →
     ∃ e done' evs,
       download w fuel pkg dir done = Some (e, done', evs) ∧
       NoDup (fetches evs) ∧
       (∀ p, p ∈ fetches evs → done !! p = None) ∧
       ∀ fuel' : nat,
         (fuel ≤ fuel')%nat →
         download w fuel' pkg dir done = Some (e, done', evs))
  ∧ (∀ (fuel : nat) roots,
       (size U < fuel)%nat →
       ∃ e fs evs,
         for_each (fun pkg => download w fuel pkg dir) roots ∅
         = Some (e, fs, evs) ∧
         NoDup (fetches evs) ∧
         ∀ fuel' : nat,
           (fuel ≤ fuel')%nat →
           for_each (fun pkg => download w fuel' pkg dir) roots ∅
           = Some (e, fs, evs)).
Proof.
  intros HU. split.
  - intros fuel pkg m Hsz.
    destruct (download_total w dir U HU fuel pkg m Hsz) as [[[e m'] evs] H].
    exists e, m', evs. split; [exact H|].
    pose proof (download_resolved w dir fuel _ _ _ H) as (HN & HA & _).
    split; [exact HN|]. split; [intros p Hp; by destruct (HA p Hp)|].
    intros fuel' Hle. by apply (download_fuel_le w dir fuel fuel').
  - intros fuel roots Hsz.
    destruct (for_each_download_total w dir U HU fuel roots ∅)
      as [[[e fs] evs] H].
    { rewrite dom_empty_L, difference_empty_L. exact Hsz. }
    exists e, fs, evs. split; [exact H|].
    pose proof (for_each_resolved w dir _ (download_resolved w dir fuel) _ _ _ H)
      as (HN & _).
    split; [exact HN|].
    intros fuel' Hle. by apply (for_each_fuel_le w dir fuel fuel').
Qed.

(** The run on the cycle of A and B. *)
Lemma download_terminates_witness :
  ∃ e fs evs,
    for_each (fun pkg => download (repo_world cycle) 3 pkg "/tmp/deb2aci")
             ["A"] ∅
    = Some (e, fs, evs) ∧
    NoDup (fetches evs).
Proof.
  pose (U := dom (list_to_map (M := gmap string (string * string * string))
                               cycle)).
  assert (∀ p, is_Some (fetched (repo_world cycle) "/tmp/deb2aci" p) → p ∈ U)
    as HU by apply tool_world_fetched.
  assert (size U < 3)%nat as Hsz by (vm_compute; lia).
  destruct (proj2 (download_terminates (repo_world cycle) "/tmp/deb2aci" U HU)
                  3%nat ["A"] Hsz) as (e & fs & evs & H & HN & _).
  exists e, fs, evs. split; [exact H|exact HN].
Defined.

(** C7: when a run of [convert] has downloaded a package for which
    [filepath.Glob] then fails or finds no archive or more than one, the
    run returns the error made for that package, the manifest is as it
    was, the removal of the working directory is the last thing done, and
    nothing has written a manifest or built an image. *)
Theorem convert_aborts_on_unexpected_matches
    w fuel pkgs image m e m' evs p :
  convert w fuel pkgs image m = Some (e, m', evs) →
  p ∈ fetches evs →
  apt_get w p = true →
  glob_failed w p = true ∨ List.length (glob_matches w p) ≠ 1%nat →
  e = Some (Unexpected (glob_failed w p) (glob_matches w p)) ∧
  m' = m ∧
  (∃ dir, work_dir w = Some dir ∧ last evs = Some (EvRemoveAll dir)) ∧
  Forall (fun ev => produces ev = false) evs.
Proof.
  intros H Hp Hapt Hglob. unfold convert in H.
  destruct (work_dir w) as [dir|]; [|simplify_eq; by apply elem_of_nil in Hp].
  destruct (for_each _ pkgs ∅) as [[[[err|] fs] evs0]|] eqn:Hloop; [| |done].
  - simplify_eq.
    pose proof (for_each_resolved w dir _ (download_resolved w dir fuel) _ _ _ Hloop)
      as (_ & HA & _ & HE & _).
    assert (p ∈ fetches evs0) as Hp0.
    { change (p ∈ fetches (evs0 ++ [EvRemoveAll dir])) in Hp.
      rewrite fetches_app in Hp. apply elem_of_app in Hp as [Hp|Hp]; [done|].
      by apply elem_of_nil in Hp. }
    destruct (HA p Hp0) as (_ & Hdir & _).
    rewrite (HE p _ Hp0 (fetch_unexpected w dir p Hdir Hapt Hglob)).
    split; [done|]. split; [done|]. split.
    + exists dir. split; [done|]. by rewrite app_comm_cons, last_snoc.
    + constructor; [done|]. apply Forall_app. split; [|by constructor].
      by eapply (for_each_quiet _ (download_quiet w dir fuel)).
  - destruct (createACI w dir fs image m) as [[e1 m1] evs1] eqn:Hc.
    simplify_eq. exfalso.
    pose proof (for_each_resolved w dir _ (download_resolved w dir fuel) _ _ _ Hloop)
      as (_ & HA & _ & HE & _).
    assert (p ∈ fetches evs0) as Hp0.
    { change (p ∈ fetches (evs0 ++ evs1 ++ [EvRemoveAll dir])) in Hp.
      rewrite !fetches_app, (fetches_createACI _ _ _ _ _ _ _ _ Hc) in Hp.
      apply elem_of_app in Hp as [Hp|Hp]; [done|].
      by apply elem_of_nil in Hp. }
    destruct (HA p Hp0) as (_ & Hdir & _).
    by specialize (HE p _ Hp0 (fetch_unexpected w dir p Hdir Hapt Hglob)).
Qed.

(** The run in which no archive is found for C. *)
Lemma convert_aborts_on_unexpected_matches_witness :
  ∃ e m' evs,
    convert no_archive_world 5 ["A"] "app.aci" base_manifest
    = Some (e, m', evs) ∧
    "C" ∈ fetches evs ∧
    e = Some (Unexpected false []) ∧
    m' = base_manifest ∧
    last evs = Some (EvRemoveAll "/tmp/deb2aci").
Proof.
  destruct (convert no_archive_world 5 ["A"] "app.aci" base_manifest)
    as [[[e m'] evs]|] eqn:H.
  - pose proof H as Hc. vm_compute in Hc. injection Hc as <- <- <-.
    eexists _, _, _. split; [reflexivity|].
    match goal with |- ?P ∧ _ => assert P as Hin end.
    { vm_compute. do 3 apply list_elem_of_further. apply list_elem_of_here. }
    assert (glob_failed no_archive_world "C" = true
            ∨ List.length (glob_matches no_archive_world "C") ≠ 1%nat) as Hglob.
    { right. vm_compute. discriminate. }
    destruct (convert_aborts_on_unexpected_matches
                no_archive_world 5 ["A"] "app.aci" base_manifest _ _ _ "C"
                H Hin eq_refl Hglob)
      as (He & Hm & (dir & Hdir & Hlast) & _).
    split; [exact Hin|]. split; [exact He|]. split; [exact Hm|].
    injection Hdir as <-. exact Hlast.
  - vm_compute in H. discriminate H.
Defined.

(** C8: when the copy of a package fails, [createACI] returns the error
    of that copy at once; the packages before it in the order of the loop
    have been copied and annotated and stay so, and after the failed copy
    nothing is done: no further copy, no removal, no manifest, no image. *)
Theorem createACI_stops_at_failed_copy
    w dir fs image m idir pre d post anns :
  image_dir w = Some idir →
  range w fs = pre ++ d :: post →
  Forall (fun x => cp w x = true) pre →
  mapM (annotation w) pre = Some anns →
  cp w d = false →
  createACI w dir fs image m
  = (Some (RunError (cp_a d (Join idir "rootfs"))),
     {| Other := Other m; Annotations := Annotations m ++ anns |},
     [EvTempDir dir "image"; EvMkdirAll (Join idir "rootfs")]
       ++ copies (Join idir "rootfs") pre
       ++ [EvRun (cp_a d (Join idir "rootfs"))]).
Proof.
  intros Hidir Hrange Hpre Hanns Hd. unfold createACI.
  rewrite Hidir, Hrange.
  by rewrite (merge_copy_fails w _ pre d post m anns Hpre Hanns Hd).
Qed.

(** The assembly in which the copy of B fails after those of C and A. *)
Lemma createACI_stops_at_failed_copy_witness :
  createACI no_copy_world "/tmp/deb2aci" diamond_fs "app.aci" base_manifest
  = (Some (RunError ["cp"; "-a"; "/tmp/deb2aci/pkg-B/out/.";
                     "/tmp/deb2aci/image/rootfs"]),
     {| Other := Other base_manifest;
        Annotations :=
          Annotations base_manifest
            ++ [{| AnnotationName := "debian.org/deb/C";
                   AnnotationValue := "all/2.0" |};
                {| AnnotationName := "debian.org/deb/A";
                   AnnotationValue := "amd64/1.0" |}] |},
     [EvTempDir "/tmp/deb2aci" "image";
      EvMkdirAll "/tmp/deb2aci/image/rootfs";
      EvRun ["cp"; "-a"; "/tmp/deb2aci/pkg-C/out/.";
             "/tmp/deb2aci/image/rootfs"];
      EvRun ["cp"; "-a"; "/tmp/deb2aci/pkg-A/out/.";
             "/tmp/deb2aci/image/rootfs"];
      EvRun ["cp"; "-a"; "/tmp/deb2aci/pkg-B/out/.";
             "/tmp/deb2aci/image/rootfs"]]).
Proof.
  apply (createACI_stops_at_failed_copy
           no_copy_world "/tmp/deb2aci" diamond_fs "app.aci" base_manifest
           "/tmp/deb2aci/image"
           [unpacked "C" "all" "2.0"; unpacked "A" "amd64" "1.0"]
           (unpacked "B" "amd64" "1.1")
           [unpacked "D" "amd64" "0.9"]
           [{| AnnotationName := "debian.org/deb/C";
               AnnotationValue := "all/2.0" |};
            {| AnnotationName := "debian.org/deb/A";
               AnnotationValue := "amd64/1.0" |}]).
  - reflexivity.
  - vm_compute. reflexivity.
  - repeat constructor.
  - reflexivity.
  - reflexivity.
Defined.

(** C10: a call of [download], and the loop over the roots, only add to
    the map: every entry that was there is there unchanged when the call
    returns, with or without error; after a call without error the name
    asked for is present; and every package whose fetch went through
    during the call is present with its record, also when the call
    failed later. *)
Theorem download_map_only_grows :
  (∀ w fuel pkg dir (done : gmap string deb) e done' evs,
     download w fuel pkg dir done = Some (e, done', evs) →
     done ⊆ done' ∧
     (e = None → is_Some (done' !! pkg)) ∧
     (∀ p d, p ∈ fetches evs → fetch w dir p = inr d → done' !! p = Some d))
  ∧ (∀ w fuel dir roots (done : gmap string deb) e done' evs,
       for_each (fun pkg => download w fuel pkg dir) roots done
       = Some (e, done', evs) →
       done ⊆ done' ∧
       (e = None → ∀ r, r ∈ roots → is_Some (done' !! r)) ∧
       (∀ p d, p ∈ fetches evs → fetch w dir p = inr d →
               done' !! p = Some d)).
Proof.
  split.
  - intros w fuel pkg dir m e m' evs H.
    apply download_resolved, resolved_grows in H as (Hsub & Hok & Hkept).
    split; [exact Hsub|]. split; [|exact Hkept].
    intros He. apply (Hok He). by left.
  - intros w fuel dir roots m e m' evs H.
    apply (for_each_resolved w dir _ (download_resolved w dir fuel)) in H.
    by apply resolved_grows in H.
Qed.

(** The run that fails on the missing X keeps A and B. *)
Lemma download_map_only_grows_witness :
  ∃ e done' evs,
    download (repo_world incomplete) 5 "A" "/tmp/deb2aci" ∅
    = Some (e, done', evs) ∧
    e = Some (RunError ["apt-get"; "download"; "X"]) ∧
    done' !! "A" = Some (unpacked "A" "amd64" "1.0") ∧
    done' !! "B" = Some (unpacked "B" "amd64" "1.1").
Proof.
  destruct (download (repo_world incomplete) 5 "A" "/tmp/deb2aci" ∅)
    as [[[e done'] evs]|] eqn:H.
  - pose proof H as Hc. vm_compute in Hc. injection Hc as <- <- <-.
    eexists _, _, _. split; [reflexivity|]. split; [reflexivity|].
    destruct (proj1 download_map_only_grows _ _ _ _ _ _ _ _ H)
      as (_ & _ & Hkept).
    split; apply Hkept;
      solve [ vm_compute; reflexivity
            | vm_compute; apply list_elem_of_here
            | vm_compute; apply list_elem_of_further, list_elem_of_here ].
  - vm_compute in H. discriminate H.
Defined.

(** ** Further properties of [convert], [createACI] and [download] *)

Section Phases.
Variable w : World.
Variable dir : string.

Lemma for_each_Forall (P : event → Prop)
    (f : string → gmap string deb → option result) :
  (∀ x done e done' evs, f x done = Some (e, done', evs) → Forall P evs) →
  ∀ l done e done' evs,
    for_each f l done = Some (e, done', evs) → Forall P evs.
Proof.
  intros Hf l. induction l as [|x l IH]; intros m e m' evs H; simpl in H.
  - simplify_eq. constructor.
  - destruct (f x m) as [[[[err|] m1] evs1]|] eqn:Hx; [| |done].
    + simplify_eq. by eapply Hf.
    + destruct (for_each f l m1) as [[[e2 m2] evs2]|] eqn:Hl; [|done].
      simplify_eq. apply Forall_app. split; [by eapply Hf|by eapply IH].
Qed.

(** Every event of a call of [download] is an event of the resolver. *)
Lemma download_resolver_events fuel :
  ∀ pkg done e done' evs,
    download w fuel pkg dir done = Some (e, done', evs) →
    Forall (fun ev => resolver_event ev = true) evs.
Proof.
  induction fuel as [|fuel IH]; [done|]. intros pkg m e m' evs H.
  cbn [download] in H.
  destruct (m !! pkg); [simplify_eq; constructor|].
  destruct (pkg_dir w pkg) as [tdir|]; [|simplify_eq; by repeat constructor].
  destruct (negb (apt_get w pkg)); [simplify_eq; by repeat constructor|].
  destruct (glob_failed w pkg);
    [destruct (glob_matches w pkg) as [|? [|? ?]];
     simplify_eq; by repeat constructor|].
  destruct (glob_matches w pkg) as [|debName [|? ?]];
    [simplify_eq; by repeat constructor| |simplify_eq; by repeat constructor].
  destruct (negb (dpkg_extract w pkg)); [simplify_eq; by repeat constructor|].
  destruct (output (dpkg_field w pkg "Architecture")) as [arch|];
    [|simplify_eq; by repeat constructor].
  destruct (output (dpkg_field w pkg "Version")) as [ver|];
    [|simplify_eq; by repeat constructor].
  destruct (output (dpkg_field w pkg "Depends")) as [out|];
    [|simplify_eq; by repeat constructor].
  destruct (parseDeps out) as [deps|]; [|simplify_eq; by repeat constructor].
  destruct (for_each _ deps _) as [[[e1 m1] evs1]|] eqn:Hloop; [|done].
  simplify_eq.
  apply (for_each_Forall _ _ IH) in Hloop.
  by repeat constructor.
Qed.

Lemma copies_assembler_events rootfs ds :
  Forall (fun ev => assembler_event ev = true) (copies rootfs ds).
Proof. by apply Forall_fmap, Forall_forall. Qed.

(** Every event of [createACI] is an event of the assembler. *)
Lemma createACI_assembler_events fs image m e m' evs :
  createACI w dir fs image m = (e, m', evs) →
  Forall (fun ev => assembler_event ev = true) evs.
Proof.
  unfold createACI. destruct (image_dir w) as [idir|];
    [|intros [= _ _ <-]; by repeat constructor].
  destruct (merge w _ (range w fs) m) as [[e1 m1] evs1] eqn:Hm.
  assert (Forall (fun ev => assembler_event ev = true) evs1) as Hevs1.
  { apply merge_cases in Hm as (_ & ds1 & ds2 & anns & _ & _ & _ & _ & Hend).
    destruct Hend as [(_ & _ & ->)|(? & ? & ? & _ & _ & -> & _)];
      apply copies_assembler_events. }
  destruct e1 as [err|]; [|destruct (MarshalJSON w m1);
    [destruct (negb (write_manifest w)); [|destruct (negb (actool w))]|]];
    intros [= _ _ <-];
    repeat first [ done | apply Forall_app; split | constructor ].
Qed.

(** [createACI] without error: what it did, in order. *)
Lemma createACI_ok_events fs image m m' evs :
  createACI w dir fs image m = (None, m', evs) →
  ∃ idir bytes,
    image_dir w = Some idir ∧
    MarshalJSON w m' = Some bytes ∧
    evs = [EvTempDir dir "image"; EvMkdirAll (Join idir "rootfs")]
            ++ copies (Join idir "rootfs") (range w fs)
            ++ [EvWriteFile (Join idir "manifest") bytes;
                EvRun (actool_build idir image)].
Proof.
  unfold createACI. destruct (image_dir w) as [idir|]; [|done].
  destruct (merge w _ (range w fs) m) as [[[err|] m1] evs1] eqn:Hm; [done|].
  apply merge_cases in Hm
    as (_ & ds1 & ds2 & anns & Hds & _ & _ & _ & Hend).
  destruct Hend as [(_ & -> & ->)|(? & ? & ? & _ & ? & _)]; [|done].
  rewrite app_nil_r in Hds. subst ds1.
  destruct (MarshalJSON w m1) as [bytes|] eqn:Hb; [|done].
  destruct (negb (write_manifest w)); [done|].
  destruct (negb (actool w)); [done|].
  intros [= <- <-]. exists idir, bytes. split; [done|]. split; [done|].
  by rewrite <- !app_assoc.
Qed.

End Phases.

(** X1: on every path of [convert] on which the working directory was
    made, its removal is the last event and the only removal; when it could
    not be made, [convert] returns that error and does nothing else. *)
Theorem convert_removes_working_directory w fuel pkgs image m e m' evs :
  convert w fuel pkgs image m = Some (e, m', evs) →
  match work_dir w with
  | Some dir =>
      ∃ body,
        evs = EvTempDir "" "deb2aci" :: body ++ [EvRemoveAll dir] ∧
        ∀ path, EvRemoveAll path ∉ body
  | None =>
      e = Some (TempDirError "" "deb2aci") ∧ m' = m ∧
      evs = [EvTempDir "" "deb2aci"]
  end.
Proof.
  intros H. unfold convert in H.
  destruct (work_dir w) as [dir|]; [|by simplify_eq].
  destruct (for_each _ pkgs ∅) as [[[[err|] fs] evs0]|] eqn:Hloop; [| |done].
  - simplify_eq. exists evs0. split; [done|].
    intros path Hin.
    apply (for_each_Forall _ _ (download_resolver_events w dir fuel)) in Hloop.
    rewrite Forall_forall in Hloop. by specialize (Hloop _ Hin).
  - destruct (createACI w dir fs image m) as [[e1 m1] evs1] eqn:Hc.
    simplify_eq. exists (evs0 ++ evs1). split; [by rewrite <- app_assoc|].
    intros path [Hin|Hin]%elem_of_app.
    + apply (for_each_Forall _ _ (download_resolver_events w dir fuel))
        in Hloop.
      rewrite Forall_forall in Hloop. by specialize (Hloop _ Hin).
    + apply createACI_assembler_events in Hc.
      rewrite Forall_forall in Hc. by specialize (Hc _ Hin).
Qed.

(** The run on the diamond ends with the removal of /tmp/deb2aci. *)
Lemma convert_removes_working_directory_witness :
  ∃ e m' evs,
    convert (repo_world diamond) 5 ["A"] "app.aci" base_manifest
    = Some (e, m', evs) ∧
    ∃ body,
      evs = EvTempDir "" "deb2aci" :: body ++ [EvRemoveAll "/tmp/deb2aci"] ∧
      ∀ path, EvRemoveAll path ∉ body.
Proof.
  destruct (convert (repo_world diamond) 5 ["A"] "app.aci" base_manifest)
    as [[[e m'] evs]|] eqn:H.
  - exists e, m', evs. split; [reflexivity|].
    exact (convert_removes_working_directory _ _ _ _ _ _ _ _ H).
  - vm_compute in H. discriminate H.
Defined.

(** X2: a run of [convert] without error has, in this order, resolved the
    packages, copied the tree of every package of the closure, written
    once the serialisation of the manifest it returns, built the image and
    removed the working directory; no resolver event comes after the first
    assembler event. *)
Theorem convert_success_phases w fuel pkgs image m m' evs :
  convert w fuel pkgs image m = Some (None, m', evs) →
  ∃ dir idir fs resolving bytes,
    work_dir w = Some dir ∧
    image_dir w = Some idir ∧
    for_each (fun pkg => download w fuel pkg dir) pkgs ∅
    = Some (None, fs, resolving) ∧
    Forall (fun ev => resolver_event ev = true) resolving ∧
    MarshalJSON w m' = Some bytes ∧
    evs = EvTempDir "" "deb2aci"
            :: resolving
            ++ [EvTempDir dir "image"; EvMkdirAll (Join idir "rootfs")]
            ++ copies (Join idir "rootfs") (range w fs)
            ++ [EvWriteFile (Join idir "manifest") bytes;
                EvRun (actool_build idir image);
                EvRemoveAll dir].
Proof.
  intros H. unfold convert in H.
  destruct (work_dir w) as [dir|]; [|done].
  destruct (for_each _ pkgs ∅) as [[[[err|] fs] evs0]|] eqn:Hloop; [done| |done].
  destruct (createACI w dir fs image m) as [[e1 m1] evs1] eqn:Hc.
  simplify_eq.
  apply createACI_ok_events in Hc as (idir & bytes & Hidir & Hbytes & ->).
  exists dir, idir, fs, evs0, bytes.
  split; [done|]. split; [done|]. split; [done|]. split.
  { by apply (for_each_Forall _ _ (download_resolver_events w dir fuel))
      in Hloop. }
  split; [done|]. by rewrite <- !app_assoc.
Qed.

(** The run on the diamond. *)
Lemma convert_success_phases_witness :
  ∃ m' evs,
    convert (repo_world diamond) 5 ["A"] "app.aci" base_manifest
    = Some (None, m', evs) ∧
    ∃ resolving,
      Forall (fun ev => resolver_event ev = true) resolving ∧
      evs = EvTempDir "" "deb2aci"
              :: resolving
              ++ [EvTempDir "/tmp/deb2aci" "image";
                  EvMkdirAll (Join "/tmp/deb2aci/image" "rootfs")]
              ++ copies (Join "/tmp/deb2aci/image" "rootfs")
                        (range (repo_world diamond) diamond_fs)
              ++ [EvWriteFile (Join "/tmp/deb2aci/image" "manifest") "{}";
                  EvRun (actool_build "/tmp/deb2aci/image" "app.aci");
                  EvRemoveAll "/tmp/deb2aci"].
Proof.
  destruct (convert (repo_world diamond) 5 ["A"] "app.aci" base_manifest)
    as [[[e m'] evs]|] eqn:H.
  - pose proof H as Hc. vm_compute in Hc. injection Hc as <- <- <-.
    eexists _, _. split; [reflexivity|].
    destruct (convert_success_phases _ _ _ _ _ _ _ H)
      as (dir & idir & fs & resolving & bytes
          & Hdir & Hidir & Hloop & Hres & Hbytes & Hevs).
    injection Hdir as <-. injection Hidir as <-.
    assert (fs = diamond_fs) as ->.
    { assert (∃ evs',
                for_each (fun pkg => download (repo_world diamond) 5 pkg
                                              "/tmp/deb2aci") ["A"] ∅
                = Some (None, diamond_fs, evs')) as [evs' Hd]
        by (eexists; vm_compute; reflexivity).
      rewrite Hd in Hloop. by injection Hloop. }
    injection Hbytes as <-.
    exists resolving. split; [exact Hres|exact Hevs].
  - vm_compute in H. discriminate H.
Defined.

(** X3: when a package that [convert] downloaded could not be fetched,
    whatever the step that failed, [convert] returns the error of that
    step, the manifest is as it was, and between the making and the
    removal of the working directory there are only events of the
    resolver: nothing was copied, written or built. *)
Theorem convert_aborts_on_failed_fetch
    w fuel pkgs image m e m' evs dir p err :
  convert w fuel pkgs image m = Some (e, m', evs) →
  work_dir w = Some dir →
  p ∈ fetches evs →
  fetch w dir p = inl err →
  e = Some err ∧
  m' = m ∧
  ∃ resolving,
    evs = EvTempDir "" "deb2aci" :: resolving ++ [EvRemoveAll dir] ∧
    Forall (fun ev => resolver_event ev = true) resolving.
Proof.
  intros H Hdir Hp Hf. unfold convert in H. rewrite Hdir in H.
  destruct (for_each _ pkgs ∅) as [[[[err0|] fs] evs0]|] eqn:Hloop; [| |done].
  - simplify_eq.
    pose proof (for_each_resolved w dir _ (download_resolved w dir fuel) _ _ _ Hloop)
      as (_ & _ & _ & HE & _).
    assert (p ∈ fetches evs0) as Hp0.
    { change (p ∈ fetches (evs0 ++ [EvRemoveAll dir])) in Hp.
      rewrite fetches_app in Hp. apply elem_of_app in Hp as [Hp|Hp]; [done|].
      by apply elem_of_nil in Hp. }
    rewrite (HE p err Hp0 Hf).
    split; [done|]. split; [done|]. exists evs0. split; [done|].
    by apply (for_each_Forall _ _ (download_resolver_events w dir fuel))
      in Hloop.
  - destruct (createACI w dir fs image m) as [[e1 m1] evs1] eqn:Hc.
    simplify_eq. exfalso.
    pose proof (for_each_resolved w dir _ (download_resolved w dir fuel) _ _ _ Hloop)
      as (_ & _ & _ & HE & _).
    assert (p ∈ fetches evs0) as Hp0.
    { change (p ∈ fetches (evs0 ++ evs1 ++ [EvRemoveAll dir])) in Hp.
      rewrite !fetches_app, (fetches_createACI _ _ _ _ _ _ _ _ Hc) in Hp.
      apply elem_of_app in Hp as [Hp|Hp]; [done|].
      by apply elem_of_nil in Hp. }
    by specialize (HE p err Hp0 Hf).
Qed.

(** X is not in the repository: [apt-get download X] fails. *)
Lemma convert_aborts_on_failed_fetch_witness :
  ∃ e m' evs,
    convert (repo_world incomplete) 5 ["A"] "app.aci" base_manifest
    = Some (e, m', evs) ∧
    "X" ∈ fetches evs ∧
    e = Some (RunError ["apt-get"; "download"; "X"]) ∧
    m' = base_manifest.
Proof.
  destruct (convert (repo_world incomplete) 5 ["A"] "app.aci" base_manifest)
    as [[[e m'] evs]|] eqn:H.
  - pose proof H as Hc. vm_compute in Hc. injection Hc as <- <- <-.
    eexists _, _, _. split; [reflexivity|].
    match goal with |- ?P ∧ _ => assert P as Hin end.
    { vm_compute. do 2 apply list_elem_of_further. apply list_elem_of_here. }
    destruct (convert_aborts_on_failed_fetch
                (repo_world incomplete) 5 ["A"] "app.aci" base_manifest
                _ _ _ "/tmp/deb2aci" "X"
                (RunError ["apt-get"; "download"; "X"]) H eq_refl Hin eq_refl)
      as (He & Hm & _).
    split; [exact Hin|]. split; [exact He|exact Hm].
  - vm_compute in H. discriminate H.
Defined.

Section Assembly.
Variable w : World.

(** The loop over a list whose first packages are copied and annotated
    goes on with the rest. *)
Lemma merge_prefix rootfs pre rest m anns :
  Forall (fun x => cp w x = true) pre →
  mapM (annotation w) pre = Some anns →
  merge w rootfs (pre ++ rest) m
  = let '(e, m', evs) :=
      merge w rootfs rest
            {| Other := Other m; Annotations := Annotations m ++ anns |} in
    (e, m', copies rootfs pre ++ evs).
Proof.
  intros Hpre. revert m anns.
  induction Hpre as [|x pre Hx _ IH]; intros m anns Hanns.
  - injection Hanns as <-. cbn [app copies fmap list_fmap].
    rewrite app_nil_r. destruct m as [o a]. cbn [Other Annotations].
    by destruct (merge w rootfs rest _) as [[? ?] ?].
  - rewrite mapM_cons in Hanns.
    destruct (mapM (annotation w) pre) as [anns'|] eqn:Hpre';
      [|by destruct (annotation w x)].
    unfold annotation in Hanns.
    cbn [app merge]. rewrite Hx. cbn [negb].
    destruct (SanitizeACIdentifier w _) as [i|]; [|done]. simpl in Hanns.
    destruct (NewACIdentifier w i) as [a|]; [|done]. simpl in Hanns.
    simplify_eq.
    rewrite (IH _ anns' eq_refl). cbn [Other Annotations].
    unfold Annotations_Set. rewrite <- app_assoc.
    by destruct (merge w rootfs rest _) as [[? ?] ?].
Qed.

Lemma copies_build_no_image rootfs ds :
  Forall (fun ev => builds_image ev = false) (copies rootfs ds).
Proof. by apply Forall_fmap, Forall_forall. Qed.

End Assembly.

(** X4: [createACI] copies the tree of a package before it makes its
    annotation.  When the name of a package cannot be made an identifier,
    its tree is already in the root file system, as are the trees of the
    packages before it, which are also annotated; the package itself is
    not annotated, nothing after it is copied, and no manifest is
    written. *)
Theorem createACI_stops_at_bad_identifier
    w dir fs image m idir pre d post anns :
  image_dir w = Some idir →
  range w fs = pre ++ d :: post →
  Forall (fun x => cp w x = true) pre →
  mapM (annotation w) pre = Some anns →
  cp w d = true →
  annotation w d = None →
  createACI w dir fs image m
  = (Some match SanitizeACIdentifier w ("debian.org/deb/" +:+ Name d) with
          | None => SanitizeError ("debian.org/deb/" +:+ Name d)
          | Some i => IdentifierError i
          end,
     {| Other := Other m; Annotations := Annotations m ++ anns |},
     [EvTempDir dir "image"; EvMkdirAll (Join idir "rootfs")]
       ++ copies (Join idir "rootfs") (pre ++ [d])).
Proof.
  intros Hidir Hrange Hpre Hanns Hd Hann. unfold createACI.
  rewrite Hidir, Hrange, (merge_prefix w _ pre (d :: post) m anns Hpre Hanns).
  cbn [merge]. rewrite Hd. cbn [negb]. unfold annotation in Hann.
  unfold copies. rewrite fmap_app.
  destruct (SanitizeACIdentifier w _) as [i|]; [|done].
  simpl in Hann. by destruct (NewACIdentifier w i).
Qed.

(** The assembly in which the name of B is refused after C and A. *)
Lemma createACI_stops_at_bad_identifier_witness :
  createACI no_identifier_world "/tmp/deb2aci" diamond_fs "app.aci"
            base_manifest
  = (Some (SanitizeError "debian.org/deb/B"),
     {| Other := Other base_manifest;
        Annotations :=
          Annotations base_manifest
            ++ [{| AnnotationName := "debian.org/deb/C";
                   AnnotationValue := "all/2.0" |};
                {| AnnotationName := "debian.org/deb/A";
                   AnnotationValue := "amd64/1.0" |}] |},
     [EvTempDir "/tmp/deb2aci" "image";
      EvMkdirAll "/tmp/deb2aci/image/rootfs";
      EvRun ["cp"; "-a"; "/tmp/deb2aci/pkg-C/out/.";
             "/tmp/deb2aci/image/rootfs"];
      EvRun ["cp"; "-a"; "/tmp/deb2aci/pkg-A/out/.";
             "/tmp/deb2aci/image/rootfs"];
      EvRun ["cp"; "-a"; "/tmp/deb2aci/pkg-B/out/.";
             "/tmp/deb2aci/image/rootfs"]]).
Proof.
  apply (createACI_stops_at_bad_identifier
           no_identifier_world "/tmp/deb2aci" diamond_fs "app.aci"
           base_manifest "/tmp/deb2aci/image"
           [unpacked "C" "all" "2.0"; unpacked "A" "amd64" "1.0"]
           (unpacked "B" "amd64" "1.1")
           [unpacked "D" "amd64" "0.9"]
           [{| AnnotationName := "debian.org/deb/C";
               AnnotationValue := "all/2.0" |};
            {| AnnotationName := "debian.org/deb/A";
               AnnotationValue := "amd64/1.0" |}]).
  - reflexivity.
  - vm_compute. reflexivity.
  - repeat constructor.
  - reflexivity.
  - reflexivity.
  - reflexivity.
Defined.

(** X5: [createACI] runs [actool] only when everything before it went
    through: whenever the command is among its events, every package of
    the map was copied and annotated, the manifest it returns was
    serialised and the file was written. *)
Theorem createACI_builds_only_complete_image
    w dir fs image m e m' evs idir :
  createACI w dir fs image m = (e, m', evs) →
  EvRun (actool_build idir image) ∈ evs →
  Forall (fun d => cp w d = true) (range w fs) ∧
  (∃ anns, mapM (annotation w) (range w fs) = Some anns ∧
           Annotations m' = Annotations m ++ anns) ∧
  (∃ bytes, MarshalJSON w m' = Some bytes ∧
            EvWriteFile (Join idir "manifest") bytes ∈ evs) ∧
  write_manifest w = true.
Proof.
  intros H Hin.
  assert (∀ l, Forall (fun ev => builds_image ev = false) l →
               EvRun (actool_build idir image) ∈ l → False) as Hno.
  { intros l Hl Hin'. rewrite Forall_forall in Hl. by specialize (Hl _ Hin'). }
  unfold createACI in H. destruct (image_dir w) as [idir'|].
  2:{ simplify_eq. exfalso. revert Hin. apply Hno.
      repeat first [ done | apply Forall_app; split | constructor ]. }
  destruct (merge w _ (range w fs) m) as [[e1 m1] evs1] eqn:Hm.
  apply merge_cases in Hm
    as (_ & ds1 & ds2 & anns & Hds & Hcp & Hanns & HA & Hend).
  assert (Forall (fun ev => builds_image ev = false) evs1) as Hevs1.
  { destruct Hend as [(_ & _ & ->)|(? & ? & ? & _ & _ & -> & _)];
      apply copies_build_no_image. }
  destruct e1 as [err|].
  { simplify_eq. exfalso. revert Hin. apply Hno.
      repeat first [ done | apply Forall_app; split | constructor ]. }
  destruct Hend as [(_ & -> & _)|(? & ? & ? & _ & ? & _)]; [|done].
  rewrite app_nil_r in Hds. subst ds1.
  destruct (MarshalJSON w m1) as [bytes|] eqn:Hb.
  2:{ simplify_eq. exfalso. revert Hin. apply Hno.
      repeat first [ done | apply Forall_app; split | constructor ]. }
  destruct (write_manifest w) eqn:Hw; cbn [negb] in H.
  2:{ simplify_eq. exfalso. revert Hin. apply Hno.
      repeat first [ done | apply Forall_app; split | constructor ]. }
  assert (idir' = idir ∧ m' = m1 ∧
          EvWriteFile (Join idir' "manifest") bytes ∈ evs) as (-> & -> & Hwr).
  { destruct (negb (actool w)); simplify_eq.
    all: rewrite !elem_of_app in Hin;
      destruct Hin as [[[Hin|Hin]|Hin]|Hin];
      [ exfalso; revert Hin; apply Hno; by repeat constructor
      | exfalso; by apply (Hno _ Hevs1)
      | exfalso; revert Hin; apply Hno; by repeat constructor
      | apply list_elem_of_singleton in Hin; injection Hin as <-;
        split; [done|]; split; [done|];
        rewrite !elem_of_app; left; right; by apply list_elem_of_singleton ]. }
  split; [done|]. split; [by exists anns|]. split; [by exists bytes|done].
Qed.

(** In the run on the diamond [actool] is among the events. *)
Lemma createACI_builds_only_complete_image_witness :
  ∃ e m' evs,
    createACI (repo_world diamond) "/tmp/deb2aci" diamond_fs "app.aci"
              base_manifest
    = (e, m', evs) ∧
    EvRun (actool_build "/tmp/deb2aci/image" "app.aci") ∈ evs ∧
    Forall (fun d => cp (repo_world diamond) d = true)
           (range (repo_world diamond) diamond_fs).
Proof.
  destruct (createACI (repo_world diamond) "/tmp/deb2aci" diamond_fs "app.aci"
                      base_manifest) as [[e m'] evs] eqn:H.
  pose proof H as Hc. vm_compute in Hc. injection Hc as <- <- <-.
  eexists _, _, _. split; [reflexivity|].
  match goal with |- ?P ∧ _ => assert P as Hin end.
  { vm_compute. do 7 apply list_elem_of_further. apply list_elem_of_here. }
  split; [exact Hin|].
  exact (proj1 (createACI_builds_only_complete_image _ _ _ _ _ _ _ _ _ H Hin)).
Defined.

Section Order.
Variable w : World.
Variable dir : string.

Lemma parent_first_nil targets : parent_first w targets [].
Proof. intros i p Hi. by rewrite lookup_nil in Hi. Qed.

Lemma parent_first_singleton pkg : parent_first w [pkg] [pkg].
Proof. intros [|i] p Hi; simplify_eq/=. left. by left. Qed.

Lemma parent_first_app x l F1 F2 :
  parent_first w [x] F1 → parent_first w l F2 →
  parent_first w (x :: l) (F1 ++ F2).
Proof.
  intros H1 H2 i p Hi.
  destruct (decide (i < List.length F1)%nat) as [Hlt|Hge].
  - rewrite lookup_app_l in Hi by done.
    destruct (H1 i p Hi) as [->%list_elem_of_singleton|(q & deps & Hq & Hd & Hp)].
    + left. by left.
    + right. exists q, deps. split; [|done].
      rewrite take_app_le by lia. done.
  - rewrite lookup_app_r in Hi by lia.
    destruct (H2 _ p Hi) as [Hin|(q & deps & Hq & Hd & Hp)].
    + left. by right.
    + right. exists q, deps. split; [|done].
      rewrite take_app_ge by lia. apply elem_of_app. by right.
Qed.

Lemma parent_first_cons pkg deps F :
  depends w pkg = Some deps → parent_first w deps F →
  parent_first w [pkg] (pkg :: F).
Proof.
  intros Hdeps HF [|i] p Hi; simpl in Hi.
  - left. simplify_eq. by left.
  - right. destruct (HF i p Hi) as [Hin|(q & deps' & Hq & Hd & Hp)].
    + exists pkg, deps. split; [by left|done].
    + exists q, deps'. split; [by right|done].
Qed.

Lemma for_each_parent_first (f : string → gmap string deb → option result) :
  (∀ x done e done' evs,
     f x done = Some (e, done', evs) → parent_first w [x] (fetches evs)) →
  ∀ l done e done' evs,
    for_each f l done = Some (e, done', evs) →
    parent_first w l (fetches evs).
Proof.
  intros Hf l. induction l as [|x l IH]; intros m e m' evs H; simpl in H.
  - simplify_eq. apply parent_first_nil.
  - destruct (f x m) as [[[[err|] m1] evs1]|] eqn:Hx; [| |done].
    + simplify_eq. apply Hf in Hx.
      rewrite <- (app_nil_r (fetches evs)).
      apply parent_first_app; [done|apply parent_first_nil].
    + destruct (for_each f l m1) as [[[e2 m2] evs2]|] eqn:Hl; [|done].
      simplify_eq. rewrite fetches_app.
      apply parent_first_app; [by eapply Hf|by eapply IH].
Qed.

Lemma download_parent_first fuel :
  ∀ pkg done e done' evs,
    download w fuel pkg dir done = Some (e, done', evs) →
    parent_first w [pkg] (fetches evs).
Proof.
  induction fuel as [|fuel IH]; [done|]. intros pkg m e m' evs H.
  apply download_cases in H
    as [[_ H]|[(_ & err & evs0 & _ & H & _ & HF)
              |(_ & d & evs0 & _ & HF & _ & H)]].
  - simplify_eq. apply parent_first_nil.
  - simplify_eq. destruct HF as [->|[-> _]];
      [apply parent_first_nil|apply parent_first_singleton].
  - destruct H as [[_ [err H]]|(deps & e1 & m1 & evs1 & Hdeps & Hloop & H)].
    + simplify_eq. rewrite HF. apply parent_first_singleton.
    + simplify_eq. rewrite fetches_app, HF. cbn [app].
      apply (parent_first_cons _ deps); [done|].
      by apply (for_each_parent_first _ IH) in Hloop.
Qed.

End Order.

(** X6: a run of the resolver adds to the map nothing but the records of
    fetches that went through: an entry that was not there before is the
    record that the fetch of its key gives, it carries its key as name,
    and its key is among the packages fetched in the run; hence a package
    whose fetch fails at any step is absent afterwards. *)
Theorem resolver_adds_only_fetched_records
    w fuel dir roots (done : gmap string deb) e done' evs p d :
  for_each (fun pkg => download w fuel pkg dir) roots done
  = Some (e, done', evs) →
  done !! p = None →
  done' !! p = Some d →
  fetch w dir p = inr d ∧ Name d = p ∧ p ∈ fetches evs.
Proof.
  intros H Hnone Hd.
  apply (for_each_resolved w dir _ (download_resolved w dir fuel)) in H.
  destruct H as (_ & _ & HB & _).
  rewrite HB, Hnone in Hd. case_decide as Hp; [|done].
  split; [|split; [by eapply fetched_name|done]].
  unfold fetched in Hd. destruct (fetch w dir p); by simplify_eq.
Qed.

(** After the run that fails on X, B is there with the record of its
    fetch. *)
Lemma resolver_adds_only_fetched_records_witness :
  ∃ e done' evs,
    for_each (fun pkg => download (repo_world incomplete) 5 pkg "/tmp/deb2aci")
             ["A"] ∅
    = Some (e, done', evs) ∧
    done' !! "B" = Some (unpacked "B" "amd64" "1.1") ∧
    fetch (repo_world incomplete) "/tmp/deb2aci" "B"
    = inr (unpacked "B" "amd64" "1.1").
Proof.
  destruct (for_each (fun pkg => download (repo_world incomplete) 5 pkg
                                          "/tmp/deb2aci") ["A"] ∅)
    as [[[e done'] evs]|] eqn:H.
  - pose proof H as Hc. vm_compute in Hc. injection Hc as <- <- <-.
    eexists _, _, _. split; [reflexivity|].
    match goal with |- ?P ∧ _ => assert P as Hd by (vm_compute; reflexivity) end.
    split; [exact Hd|].
    exact (proj1 (resolver_adds_only_fetched_records
                    _ _ _ _ _ _ _ _ "B" _ H (lookup_empty _) Hd)).
  - vm_compute in H. discriminate H.
Defined.

(** X7: the resolver fetches depth first, a package before its
    dependencies: in the order of the downloads of a run, with or without
    error, every package is one of the roots or a dependency of a package
    downloaded before it. *)
Theorem resolver_fetches_parent_first
    w fuel dir roots (done : gmap string deb) e done' evs (i : nat) p :
  for_each (fun pkg => download w fuel pkg dir) roots done
  = Some (e, done', evs) →
  fetches evs !! i = Some p →
  p ∈ roots ∨
  ∃ q deps, q ∈ take i (fetches evs) ∧ depends w q = Some deps ∧ p ∈ deps.
Proof.
  intros H Hi.
  apply (for_each_parent_first w _ (download_parent_first w dir fuel)) in H.
  by apply H.
Qed.

(** In the diamond D is the third download, after B which depends on it. *)
Lemma resolver_fetches_parent_first_witness :
  ∃ e done' evs,
    for_each (fun pkg => download (repo_world diamond) 5 pkg "/tmp/deb2aci")
             ["A"] ∅
    = Some (e, done', evs) ∧
    fetches evs !! 2%nat = Some "D" ∧
    ("D" ∈ ["A"] ∨
     ∃ q deps, q ∈ take 2 (fetches evs) ∧
               depends (repo_world diamond) q = Some deps ∧ "D" ∈ deps).
Proof.
  destruct (for_each (fun pkg => download (repo_world diamond) 5 pkg
                                          "/tmp/deb2aci") ["A"] ∅)
    as [[[e done'] evs]|] eqn:H.
  - pose proof H as Hc. vm_compute in Hc. injection Hc as <- <- <-.
    eexists _, _, _. split; [reflexivity|].
    match goal with |- ?P ∧ _ => assert P as Hi by (vm_compute; reflexivity) end.
    split; [exact Hi|].
    exact (resolver_fetches_parent_first _ _ _ _ _ _ _ _ _ _ H Hi).
  - vm_compute in H. discriminate H.
Defined.

(** Of two runs from the empty map without error, the one with fewer
    roots leaves a submap. *)
Lemma closure_submap w dir (roots1 roots2 : list string)
    (fs1 fs2 : gmap string deb) evs1 evs2 :
  resolved w dir roots1 ∅ (None, fs1, evs1) →
  resolved w dir roots2 ∅ (None, fs2, evs2) →
  (∀ r, r ∈ roots1 → r ∈ roots2) → fs1 ⊆ fs2.
Proof.
  intros H1 H2 Hroots.
  destruct (resolved_closure _ _ _ _ _ H1) as (_ & Hreach1 & _).
  destruct (resolved_closure _ _ _ _ _ H2) as (Hdom2 & Hreach2 & _).
  destruct H1 as (_ & _ & HB1 & _). destruct H2 as (_ & _ & HB2 & _).
  apply map_subseteq_spec. intros p d Hp.
  assert (is_Some (fs2 !! p)) as Hb.
  { apply Hreach2.
    destruct (proj1 (Hreach1 p) (mk_is_Some _ _ Hp)) as (r & Hr & Hreach).
    exists r. split; [by apply Hroots|done]. }
  rewrite HB1, lookup_empty in Hp. rewrite HB2, lookup_empty.
  apply Hdom2 in Hb. rewrite decide_True by done.
  by case_decide.
Qed.

(** X8: the closure does not depend on the order of the roots, and grows
    with them: of two runs from the empty map without error, the one whose
    roots are among the roots of the other leaves a submap of the other's
    map; with the same roots in any order, and whatever the fuel, the two
    maps are equal. *)
Theorem closure_grows_with_roots
    w dir fuel1 fuel2 (roots1 roots2 : list string) fs1 fs2 evs1 evs2 :
  for_each (fun pkg => download w fuel1 pkg dir) roots1 ∅
  = Some (None, fs1, evs1) →
  for_each (fun pkg => download w fuel2 pkg dir) roots2 ∅
  = Some (None, fs2, evs2) →
  ((∀ r, r ∈ roots1 → r ∈ roots2) → fs1 ⊆ fs2) ∧
  ((∀ r, r ∈ roots1 ↔ r ∈ roots2) → fs1 = fs2).
Proof.
  intros H1 H2.
  apply (for_each_resolved w dir _ (download_resolved w dir fuel1)) in H1.
  apply (for_each_resolved w dir _ (download_resolved w dir fuel2)) in H2.
  split.
  - intros Hroots. by eapply closure_submap.
  - intros Hroots. apply (anti_symm (⊆)).
    + eapply closure_submap; try done. intros r. apply Hroots.
    + eapply closure_submap; try done. intros r. apply Hroots.
Qed.

(** B then C, and C then B, in the diamond. *)
Lemma closure_grows_with_roots_witness :
  ∃ fs1 fs2 evs1 evs2,
    for_each (fun pkg => download (repo_world diamond) 5 pkg "/tmp/deb2aci")
             ["B"; "C"] ∅
    = Some (None, fs1, evs1) ∧
    for_each (fun pkg => download (repo_world diamond) 3 pkg "/tmp/deb2aci")
             ["C"; "B"] ∅
    = Some (None, fs2, evs2) ∧
    fetches evs1 = ["B"; "D"; "C"] ∧
    fetches evs2 = ["C"; "D"; "B"] ∧
    fs1 = fs2.
Proof.
  destruct (for_each (fun pkg => download (repo_world diamond) 5 pkg
                                          "/tmp/deb2aci") ["B"; "C"] ∅)
    as [[[e1 fs1] evs1]|] eqn:H1; [|vm_compute in H1; discriminate H1].
  destruct (for_each (fun pkg => download (repo_world diamond) 3 pkg
                                          "/tmp/deb2aci") ["C"; "B"] ∅)
    as [[[e2 fs2] evs2]|] eqn:H2; [|vm_compute in H2; discriminate H2].
  pose proof H1 as Hc1. vm_compute in Hc1. injection Hc1 as <- <- <-.
  pose proof H2 as Hc2. vm_compute in Hc2. injection Hc2 as <- <- <-.
  eexists _, _, _, _. split; [reflexivity|]. split; [reflexivity|].
  split; [reflexivity|]. split; [reflexivity|].
  apply (proj2 (closure_grows_with_roots _ _ _ _ _ _ _ _ _ _ H1 H2)).
  intros r. rewrite !elem_of_cons. tauto.
Defined.

(** ** Further properties of [parseDeps] *)

Section Names.

Lemma append_cons c a b : String c a +:+ b = String c (a +:+ b).
Proof. reflexivity. Qed.

Lemma free_app sep a b : free sep (a +:+ b) = free sep a && free sep b.
Proof.
  induction a as [|c a IH]; [done|].
  rewrite append_cons. cbn [free]. rewrite IH. by rewrite andb_assoc.
Qed.

Lemma before_free sep s : free sep (before sep s) = true.
Proof.
  induction s as [|c r IH]; [done|]. cbn [before].
  destruct (Ascii.eqb c sep) eqn:Hc; [done|]. cbn [free]. by rewrite Hc.
Qed.

(** [before] keeps a prefix. *)
Lemma before_prefix sep s : ∃ suf, s = before sep s +:+ suf.
Proof.
  induction s as [|c r [suf IH]]; [by exists ""|]. cbn [before].
  destruct (Ascii.eqb c sep); [by exists (String c r)|].
  exists suf. rewrite append_cons. by rewrite <- IH.
Qed.

Lemma Split_free s sep part : part ∈ Split s sep → free sep part = true.
Proof.
  revert part. induction s as [|c r IH]; intros part; cbn [Split].
  - by intros ->%list_elem_of_singleton.
  - destruct (Ascii.eqb c sep) eqn:Hc.
    + intros [->|Hin]%elem_of_cons; [done|by apply IH].
    + destruct (Split r sep) as [|h t].
      * intros ->%list_elem_of_singleton. cbn [free]. by rewrite Hc.
      * intros [->|Hin]%elem_of_cons.
        -- cbn [free]. rewrite Hc. apply IH. by left.
        -- apply IH. by right.
Qed.

Lemma TrimLeftSpace_suffix s : ∃ pre, s = pre +:+ TrimLeftSpace s.
Proof.
  induction s as [s IH] using string_length_ind.
  assert (∀ pre t, (String.length t < String.length s)%nat →
                   s = pre +:+ t →
                   ∃ pre', s = pre' +:+ TrimLeftSpace t) as Hrec.
  { intros pre t Hlt ->. destruct (IH t Hlt) as [pre' Hpre'].
    exists (pre +:+ pre'). rewrite append_assoc. by rewrite <- Hpre'. }
  destruct s as [|c1 r1]; [by exists ""|].
  change (TrimLeftSpace (String c1 r1)) with
    (if asciiSpace c1 then TrimLeftSpace r1 else
     match r1 with
     | "" => String c1 r1
     | String c2 r2 =>
         if space2 c1 c2 then TrimLeftSpace r2 else
         match r2 with
         | "" => String c1 r1
         | String c3 r3 =>
             if space3 c1 c2 c3 then TrimLeftSpace r3 else String c1 r1
         end
     end).
  destruct (asciiSpace c1).
  { apply (Hrec (String c1 "")); [cbn [String.length]; lia|done]. }
  destruct r1 as [|c2 r2]; [by exists ""|].
  destruct (space2 c1 c2).
  { apply (Hrec (String c1 (String c2 ""))); [cbn [String.length]; lia|done]. }
  destruct r2 as [|c3 r3]; [by exists ""|].
  destruct (space3 c1 c2 c3); [|by exists ""].
  apply (Hrec (String c1 (String c2 (String c3 ""))));
    [cbn [String.length]; lia|done].
Qed.

(** [TrimSpace] removes bytes at both ends and adds none. *)
Lemma TrimSpace_free sep s : free sep s = true → free sep (TrimSpace s) = true.
Proof.
  intros Hs. unfold TrimSpace.
  destruct (TrimLeftSpace_suffix s) as [pre Hpre].
  destruct (TrimRightSpace_prefix (TrimLeftSpace s)) as [suf Hsuf].
  rewrite Hpre, Hsuf, !free_app in Hs.
  by apply andb_prop in Hs as [_ [Hs _]%andb_prop].
Qed.

End Names.

(** X9: no name that [parseDeps] returns contains a comma or a space,
    whatever the declaration. *)
Theorem parseDeps_names_without_separator line names name :
  parseDeps line = Some names →
  name ∈ names →
  free "," name = true ∧ free " " name = true.
Proof.
  rewrite parseDeps_eq. intros [= <-]. case_decide; [by intros ?%elem_of_nil|].
  intros (clause & -> & Hin)%list_elem_of_fmap.
  split; [|apply before_free].
  apply Split_free, (TrimSpace_free ",") in Hin.
  destruct (before_prefix " " (TrimSpace clause)) as [suf Hsuf].
  rewrite Hsuf, free_app in Hin. by apply andb_prop in Hin as [Hin _].
Qed.

(** The first name of a declaration with version constraints. *)
Lemma parseDeps_names_without_separator_witness :
  parseDeps "libc6 (>= 2.14), libssl1.1" = Some ["libc6"; "libssl1.1"] ∧
  "libc6" ∈ ["libc6"; "libssl1.1"] ∧
  free "," "libc6" = true ∧ free " " "libc6" = true.
Proof.
  assert (parseDeps "libc6 (>= 2.14), libssl1.1"
          = Some ["libc6"; "libssl1.1"]) as Hp by reflexivity.
  assert ("libc6" ∈ ["libc6"; "libssl1.1"]) as Hin by apply list_elem_of_here.
  split; [exact Hp|]. split; [exact Hin|].
  exact (parseDeps_names_without_separator _ _ _ Hp Hin).
Defined.

Section Format.

Lemma word_byte_low c :
  word_byte c = true → (N_of_ascii c < 128)%N ∧ asciiSpace c = false.
Proof.
  unfold word_byte, asciiSpace. intros H.
  apply andb_prop in H as [[H1%N.ltb_lt H2%N.ltb_lt]%andb_prop _].
  split; [lia|].
  apply orb_false_iff. split.
  - apply andb_false_iff. right. apply N.leb_gt. lia.
  - apply N.eqb_neq. lia.
Qed.

Lemma word_byte_sep c :
  word_byte c = true → Ascii.eqb c "," = false ∧ Ascii.eqb c " " = false.
Proof.
  unfold word_byte. intros H.
  apply andb_prop in H as [[H1%N.ltb_lt _]%andb_prop H3%negb_true_iff].
  apply N.eqb_neq in H3.
  split; apply Ascii.eqb_neq; intros ->; [by apply H3|].
  change (N_of_ascii " ") with 32%N in H1. lia.
Qed.

Lemma space2_low_l c1 c2 : (N_of_ascii c1 < 128)%N → space2 c1 c2 = false.
Proof.
  intros H. unfold space2.
  destruct (N.eqb_spec (N_of_ascii c1) 194); [lia|done].
Qed.

Lemma space2_low_r c1 c2 : (N_of_ascii c2 < 128)%N → space2 c1 c2 = false.
Proof.
  intros H. unfold space2.
  destruct (N.eqb_spec (N_of_ascii c2) 133); [lia|].
  destruct (N.eqb_spec (N_of_ascii c2) 160); [lia|].
  apply andb_false_r.
Qed.

Lemma space3_low_l c1 c2 c3 : (N_of_ascii c1 < 128)%N → space3 c1 c2 c3 = false.
Proof.
  intros H. unfold space3.
  destruct (N.eqb_spec (N_of_ascii c1) 225); [lia|].
  destruct (N.eqb_spec (N_of_ascii c1) 226); [lia|].
  destruct (N.eqb_spec (N_of_ascii c1) 227); [lia|done].
Qed.

Lemma space3_low_r c1 c2 c3 : (N_of_ascii c3 < 128)%N → space3 c1 c2 c3 = false.
Proof.
  intros H. unfold space3.
  destruct (N.eqb_spec (N_of_ascii c3) 128); [lia|].
  destruct (N.eqb_spec (N_of_ascii c3) 168); [lia|].
  destruct (N.eqb_spec (N_of_ascii c3) 169); [lia|].
  destruct (N.eqb_spec (N_of_ascii c3) 175); [lia|].
  destruct (N.eqb_spec (N_of_ascii c3) 159); [lia|].
  destruct (N.leb_spec 128 (N_of_ascii c3)); [lia|].
  by rewrite !andb_false_r.
Qed.

(** Nothing is trimmed in front of a word byte, *)
Lemma TrimLeftSpace_word c r :
  word_byte c = true → TrimLeftSpace (String c r) = String c r.
Proof.
  intros [Hlow Hsp]%word_byte_low. cbn [TrimLeftSpace]. rewrite Hsp.
  destruct r as [|c2 [|c3 r3]]; [done|..];
    rewrite (space2_low_l _ _ Hlow); [done|].
  by rewrite (space3_low_l _ _ _ Hlow).
Qed.

(** nor behind one. *)
Lemma TrimLeftSpaceRev_word c r :
  word_byte c = true → TrimLeftSpaceRev (String c r) = String c r.
Proof.
  intros [Hlow Hsp]%word_byte_low. cbn [TrimLeftSpaceRev]. rewrite Hsp.
  destruct r as [|c2 [|c3 r3]]; [done|..];
    rewrite (space2_low_r _ _ Hlow); [done|].
  by rewrite (space3_low_r _ _ _ Hlow).
Qed.

Lemma rev_rev s : String.rev (String.rev s) = s.
Proof.
  unfold String.rev. rewrite rev_app_rev_app. cbn [String.rev_app].
  apply append_nil_r.
Qed.

Lemma rev_append a b : String.rev (a +:+ b) = String.rev b +:+ String.rev a.
Proof. unfold String.rev at 1. rewrite rev_app_app. apply rev_app_append. Qed.

Lemma ends_with_word_app a b : ends_with_word b → ends_with_word (a +:+ b).
Proof.
  intros (c & r & Hr & Hc). exists c, (r +:+ String.rev a).
  by rewrite rev_append, Hr.
Qed.

Lemma word_ends_with_word t : word t = true → ends_with_word t.
Proof.
  destruct t as [|c t]; [done|]. cbn [word].
  assert (∀ acc, word_bytes (String c t) = true →
                 ∃ c' r', String.rev_app (String c t) acc = String c' r'
                          ∧ word_byte c' = true) as Hgen.
  { revert c. induction t as [|c2 t IH]; intros c acc H.
    - exists c, acc. split; [done|]. cbn [word_bytes] in H.
      by apply andb_prop in H as [H _].
    - cbn [word_bytes] in H. apply andb_prop in H as [_ H].
      cbn [String.rev_app]. apply (IH c2 (String c acc) H). }
  intros H. destruct (Hgen "" H) as (c' & r' & Hr & Hc). by exists c', r'.
Qed.

(** Nothing is trimmed from a string that begins and ends with a word
    byte. *)
Lemma TrimSpace_between_words c r :
  word_byte c = true → ends_with_word (String c r) →
  TrimSpace (String c r) = String c r.
Proof.
  intros Hc (c' & r' & Hr & Hc'). unfold TrimSpace, TrimRightSpace.
  rewrite (TrimLeftSpace_word _ _ Hc), Hr, (TrimLeftSpaceRev_word _ _ Hc').
  by rewrite <- Hr, rev_rev.
Qed.

Lemma word_bytes_free t :
  word_bytes t = true → free "," t = true ∧ free " " t = true.
Proof.
  induction t as [|c t IH]; [done|]. cbn [word_bytes free].
  intros [Hc Ht]%andb_prop. destruct (IH Ht) as [-> ->].
  by destruct (word_byte_sep _ Hc) as [-> ->].
Qed.

Lemma word_word_bytes t : word t = true → word_bytes t = true.
Proof. by destruct t. Qed.

Lemma spaced_free ws :
  Forall (fun t => word t = true) ws → free "," (spaced ws) = true.
Proof.
  induction 1 as [|t ws Ht _ IH]; [done|]. cbn [spaced].
  rewrite !free_app, IH.
  by destruct (word_bytes_free _ (word_word_bytes _ Ht)) as [-> _].
Qed.

Lemma spaced_ends_with_word t ws :
  word t = true → Forall (fun t => word t = true) ws →
  ends_with_word (t +:+ spaced ws).
Proof.
  intros Ht Hws. revert t Ht.
  induction Hws as [|t' ws Ht' _ IH]; intros t Ht.
  - cbn [spaced]. rewrite append_nil_r. by apply word_ends_with_word.
  - cbn [spaced]. apply ends_with_word_app, ends_with_word_app. by apply IH.
Qed.

Lemma clause_shape c :
  well_formed c →
  (∃ b r, clause c = String b r ∧ word_byte b = true) ∧
  ends_with_word (clause c) ∧
  free "," (clause c) = true ∧
  before " " (clause c) = c.1.
Proof.
  destruct c as [name ws]. intros [Hname Hws]. cbn [fst snd] in *.
  unfold clause. cbn [fst snd].
  split; [|split; [by apply spaced_ends_with_word|split]].
  - destruct name as [|b r]; [done|]. exists b, (r +:+ spaced ws).
    split; [done|]. cbn [word word_bytes] in Hname.
    by apply andb_prop in Hname as [Hb _].
  - rewrite free_app, (spaced_free _ Hws).
    by destruct (word_bytes_free _ (word_word_bytes _ Hname)) as [-> _].
  - destruct (word_bytes_free _ (word_word_bytes _ Hname)) as [_ Hfree].
    clear Hname. induction name as [|b r IH].
    + destruct ws as [|t ws]; [done|]. reflexivity.
    + cbn [free] in Hfree. apply andb_prop in Hfree as [Hb Hr].
      rewrite append_cons. cbn [before].
      apply negb_true_iff in Hb. rewrite Hb. by rewrite (IH Hr).
Qed.

Lemma TrimSpace_clause c : well_formed c → TrimSpace (clause c) = clause c.
Proof.
  intros ((b & r & Hb & Hwb) & Hend & _)%clause_shape.
  rewrite Hb in *. by apply TrimSpace_between_words.
Qed.

Lemma TrimSpace_space s : TrimSpace (" " +:+ s) = TrimSpace s.
Proof. reflexivity. Qed.

Lemma Split_free_whole s sep : free sep s = true → Split s sep = [s].
Proof.
  induction s as [|c r IH]; [done|]. cbn [free Split].
  intros [Hc Hr]%andb_prop. apply negb_true_iff in Hc.
  by rewrite Hc, (IH Hr).
Qed.

Lemma Split_app_sep a rest sep :
  free sep a = true →
  Split (a +:+ String sep rest) sep = a :: Split rest sep.
Proof.
  induction a as [|c r IH].
  - intros _. change (Split (String sep rest) sep = "" :: Split rest sep).
    cbn [Split]. by rewrite Ascii.eqb_refl.
  - cbn [free]. intros [Hc Hr]%andb_prop. apply negb_true_iff in Hc.
    rewrite append_cons. cbn [Split]. by rewrite Hc, (IH Hr).
Qed.

(** The clauses that [strings.Split] finds in a declaration. *)
Lemma Split_declaration pre c cls :
  free "," pre = true →
  Forall well_formed (c :: cls) →
  Split (pre +:+ declaration (c :: cls)) ","
  = (pre +:+ clause c) :: ((fun c => " " +:+ clause c) <$> cls).
Proof.
  revert pre c. induction cls as [|c2 cls IH]; intros pre c Hpre Hall.
  - cbn [declaration fmap list_fmap]. apply Split_free_whole.
    apply Forall_cons in Hall as [(_ & _ & Hf & _)%clause_shape _].
    by rewrite free_app, Hpre, Hf.
  - apply Forall_cons in Hall as [Hc Hall].
    change (declaration (c :: c2 :: cls))
      with (clause c +:+ ", " +:+ declaration (c2 :: cls)).
    change (", " +:+ declaration (c2 :: cls))
      with (String "," (" " +:+ declaration (c2 :: cls))).
    rewrite <- append_assoc, Split_app_sep.
    + by rewrite (IH " " c2 eq_refl Hall).
    + destruct (clause_shape _ Hc) as (_ & _ & Hf & _).
      by rewrite free_app, Hpre, Hf.
Qed.

End Format.

(** X10: [parseDeps] reads back the names of a declaration written the
    usual way: for clauses separated by a comma and a space, each a
    package name followed by the words of its version constraint after
    single spaces, all of them made of printable ASCII bytes other than
    the space and the comma, it returns exactly the names, in order. *)
Theorem parseDeps_reads_declaration cls :
  Forall well_formed cls →
  parseDeps (declaration cls) = Some (cls.*1).
Proof.
  intros Hall. rewrite parseDeps_eq.
  destruct cls as [|c cls]; [done|].
  assert (TrimSpace (declaration (c :: cls)) = declaration (c :: cls)) as ->.
  { pose proof (Forall_inv Hall) as Hc.
    destruct (clause_shape _ Hc) as ((b & r & Hb & Hwb) & _).
    assert (ends_with_word (declaration (c :: cls))) as Hend.
    { clear Hb Hwb Hc b r. revert c Hall.
      induction cls as [|c2 cls IH]; intros c Hall.
      - by apply clause_shape, (Forall_inv Hall).
      - change (declaration (c :: c2 :: cls))
          with (clause c +:+ ", " +:+ declaration (c2 :: cls)).
        apply ends_with_word_app, ends_with_word_app, IH.
        by apply Forall_cons in Hall as [_ Hall]. }
    assert (∃ r', declaration (c :: cls) = String b r') as [r' Hd].
    { destruct cls as [|c2 cls]; [by exists r|].
      change (declaration (c :: c2 :: cls))
        with (clause c +:+ ", " +:+ declaration (c2 :: cls)).
      rewrite Hb. by eexists. }
    rewrite Hd in *. by apply TrimSpace_between_words. }
  assert (declaration (c :: cls) ≠ "") as Hne.
  { pose proof (Forall_inv Hall) as Hc.
    destruct (clause_shape _ Hc) as ((b & r & Hb & _) & _).
    destruct cls as [|c2 cls].
    - change (declaration [c]) with (clause c). by rewrite Hb.
    - change (declaration (c :: c2 :: cls))
        with (clause c +:+ ", " +:+ declaration (c2 :: cls)).
      by rewrite Hb. }
  rewrite decide_False by done. f_equal.
  pose proof (Split_declaration "" c cls eq_refl Hall) as HS.
  change ("" +:+ declaration (c :: cls)) with (declaration (c :: cls)) in HS.
  change ("" +:+ clause c) with (clause c) in HS.
  rewrite HS. apply Forall_cons in Hall as [Hc Hall].
  rewrite !fmap_cons, <- list_fmap_compose. f_equal.
  - rewrite (TrimSpace_clause _ Hc). by apply clause_shape.
  - apply Forall_fmap_ext. eapply Forall_impl; [exact Hall|].
    intros c' Hc'.
    change (before " " (TrimSpace (" " +:+ clause c')) = c'.1).
    rewrite TrimSpace_space, (TrimSpace_clause _ Hc').
    by apply clause_shape.
Qed.

(** The declaration "libc6 (>= 2.14), libssl1.1, zlib1g (>= 1:1.1.4)". *)
Lemma parseDeps_reads_declaration_witness :
  declaration [("libc6", ["(>="; "2.14)"]); ("libssl1.1", []);
               ("zlib1g", ["(>="; "1:1.1.4)"])]
  = "libc6 (>= 2.14), libssl1.1, zlib1g (>= 1:1.1.4)"
  ∧ parseDeps "libc6 (>= 2.14), libssl1.1, zlib1g (>= 1:1.1.4)"
    = Some ["libc6"; "libssl1.1"; "zlib1g"].
Proof.
  split; [reflexivity|].
  apply (parseDeps_reads_declaration
           [("libc6", ["(>="; "2.14)"]); ("libssl1.1", []);
            ("zlib1g", ["(>="; "1:1.1.4)"])]).
  repeat constructor.
Defined.

(** ** Trimming twice *)

Section Trimmed.

(** One step of the scan from the front: it stops, or goes on with a
    shorter string. *)
Lemma TrimLeftSpace_step s :
  TrimLeftSpace s = s
  ∨ ∃ pre r, s = pre +:+ r ∧ pre ≠ "" ∧ TrimLeftSpace s = TrimLeftSpace r ∧
             ∀ suf, TrimLeftSpace (s +:+ suf) = TrimLeftSpace (r +:+ suf).
Proof.
  destruct s as [|c1 r1]; [by left|].
  destruct (asciiSpace c1) eqn:H1.
  { right. exists (String c1 ""), r1. split; [done|]. split; [done|].
    split; [cbn [TrimLeftSpace]; by rewrite H1|].
    intros suf. rewrite append_cons. cbn [TrimLeftSpace]. by rewrite H1. }
  destruct r1 as [|c2 r2]; [left; cbn [TrimLeftSpace]; by rewrite H1|].
  destruct (space2 c1 c2) eqn:H2.
  { right. exists (String c1 (String c2 "")), r2.
    split; [done|]. split; [done|].
    split; [cbn [TrimLeftSpace]; by rewrite H1, H2|].
    intros suf. rewrite !append_cons. cbn [TrimLeftSpace]. by rewrite H1, H2. }
  destruct r2 as [|c3 r3]; [left; cbn [TrimLeftSpace]; by rewrite H1, H2|].
  destruct (space3 c1 c2 c3) eqn:H3.
  { right. exists (String c1 (String c2 (String c3 ""))), r3.
    split; [done|]. split; [done|].
    split; [cbn [TrimLeftSpace]; by rewrite H1, H2, H3|].
    intros suf. rewrite !append_cons. cbn [TrimLeftSpace].
    by rewrite H1, H2, H3. }
  left. cbn [TrimLeftSpace]. by rewrite H1, H2, H3.
Qed.

Lemma TrimLeftSpaceRev_step s :
  TrimLeftSpaceRev s = s
  ∨ ∃ pre r, s = pre +:+ r ∧ pre ≠ "" ∧
             TrimLeftSpaceRev s = TrimLeftSpaceRev r.
Proof.
  destruct s as [|c1 r1]; [by left|].
  destruct (asciiSpace c1) eqn:H1.
  { right. exists (String c1 ""), r1. split; [done|]. split; [done|].
    cbn [TrimLeftSpaceRev]. by rewrite H1. }
  destruct r1 as [|c2 r2]; [left; cbn [TrimLeftSpaceRev]; by rewrite H1|].
  destruct (space2 c2 c1) eqn:H2.
  { right. exists (String c1 (String c2 "")), r2.
    split; [done|]. split; [done|].
    cbn [TrimLeftSpaceRev]. by rewrite H1, H2. }
  destruct r2 as [|c3 r3]; [left; cbn [TrimLeftSpaceRev]; by rewrite H1, H2|].
  destruct (space3 c3 c2 c1) eqn:H3.
  { right. exists (String c1 (String c2 (String c3 ""))), r3.
    split; [done|]. split; [done|].
    cbn [TrimLeftSpaceRev]. by rewrite H1, H2, H3. }
  left. cbn [TrimLeftSpaceRev]. by rewrite H1, H2, H3.
Qed.

Lemma length_append a b :
  String.length (a +:+ b) = (String.length a + String.length b)%nat.
Proof.
  induction a as [|c a IH]; [done|].
  rewrite append_cons. cbn [String.length]. by rewrite IH.
Qed.

Lemma length_pos s : s ≠ "" → (0 < String.length s)%nat.
Proof. destruct s; [done|]. cbn [String.length]. lia. Qed.

Lemma TrimLeftSpace_idem s : TrimLeftSpace (TrimLeftSpace s) = TrimLeftSpace s.
Proof.
  induction s as [s IH] using string_length_ind.
  destruct (TrimLeftSpace_step s) as [Hfix|(pre & r & -> & Hpre & -> & _)];
    [by rewrite !Hfix|].
  apply IH. rewrite length_append. apply length_pos in Hpre. lia.
Qed.

Lemma TrimLeftSpaceRev_idem s :
  TrimLeftSpaceRev (TrimLeftSpaceRev s) = TrimLeftSpaceRev s.
Proof.
  induction s as [s IH] using string_length_ind.
  destruct (TrimLeftSpaceRev_step s) as [Hfix|(pre & r & -> & Hpre & ->)];
    [by rewrite !Hfix|].
  apply IH. rewrite length_append. apply length_pos in Hpre. lia.
Qed.

Lemma TrimLeftSpace_length s :
  (String.length (TrimLeftSpace s) ≤ String.length s)%nat.
Proof.
  destruct (TrimLeftSpace_suffix s) as [pre Hpre].
  rewrite Hpre at 2. rewrite length_append. lia.
Qed.

(** A prefix of a string from which nothing is trimmed in front has
    nothing to trim in front either. *)
Lemma TrimLeftSpace_prefix_fixed u suf :
  TrimLeftSpace (u +:+ suf) = u +:+ suf → TrimLeftSpace u = u.
Proof.
  intros Hfix.
  destruct (TrimLeftSpace_step u) as [Hu|(pre & r & -> & Hpre & _ & Hgo)];
    [done|].
  exfalso. rewrite Hgo in Hfix.
  pose proof (TrimLeftSpace_length (r +:+ suf)) as Hlen.
  rewrite Hfix, !length_append in Hlen. apply length_pos in Hpre. lia.
Qed.

Lemma TrimSpace_idem s : TrimSpace (TrimSpace s) = TrimSpace s.
Proof.
  unfold TrimSpace at 1.
  assert (TrimLeftSpace (TrimSpace s) = TrimSpace s) as ->.
  { unfold TrimSpace.
    destruct (TrimRightSpace_prefix (TrimLeftSpace s)) as [suf Hsuf].
    apply (TrimLeftSpace_prefix_fixed _ suf).
    by rewrite <- Hsuf, TrimLeftSpace_idem. }
  unfold TrimSpace, TrimRightSpace.
  by rewrite rev_rev, TrimLeftSpaceRev_idem.
Qed.

End Trimmed.

(** X11: [output] returns its text trimmed, so the resolver stores the
    Architecture and the Version of a package without white space in front
    or behind (no line break of [dpkg-deb] reaches an annotation), and the
    path of the tree is the directory [out] of the directory made for the
    package: for every entry that a run adds, trimming its Architecture or
    its Version again changes nothing. *)
Theorem resolver_stores_trimmed_fields
    w fuel dir roots (done : gmap string deb) e done' evs p d :
  for_each (fun pkg => download w fuel pkg dir) roots done
  = Some (e, done', evs) →
  done !! p = None →
  done' !! p = Some d →
  TrimSpace (Arch d) = Arch d ∧
  TrimSpace (Version d) = Version d ∧
  ∃ tdir, pkg_dir w p = Some tdir ∧ Path d = Join tdir "out".
Proof.
  intros H Hnone Hd.
  apply (for_each_resolved w dir _ (download_resolved w dir fuel)) in H.
  destruct H as (_ & _ & HB & _).
  rewrite HB, Hnone in Hd. case_decide as Hp; [|done].
  unfold fetched, fetch, output in Hd.
  destruct (pkg_dir w p) as [tdir|]; [|done].
  destruct (negb (apt_get w p)); [done|].
  destruct (glob_failed w p);
    [by destruct (glob_matches w p) as [|? [|? ?]]|].
  destruct (glob_matches w p) as [|? [|? ?]]; [done| |done].
  destruct (negb (dpkg_extract w p)); [done|].
  destruct (dpkg_field w p "Architecture") as [arch|]; [|done].
  destruct (dpkg_field w p "Version") as [ver|]; [|done].
  cbn in Hd. injection Hd as <-. cbn [Arch Version Path].
  split; [apply TrimSpace_idem|]. split; [apply TrimSpace_idem|].
  by exists tdir.
Qed.

(** [dpkg-deb] ends its answers with a line break. *)
Lemma resolver_stores_trimmed_fields_witness :
  ∃ e done' evs,
    for_each
      (fun pkg =>
         download
           (repo_world [("A", ("amd64" +:+ String "010" "",
                               "1.0" +:+ String "010" "", ""))])
           2 pkg "/tmp/deb2aci") ["A"] ∅
    = Some (e, done', evs) ∧
    done' !! "A" = Some (unpacked "A" "amd64" "1.0") ∧
    TrimSpace (Version (unpacked "A" "amd64" "1.0"))
    = Version (unpacked "A" "amd64" "1.0").
Proof.
  destruct (for_each
      (fun pkg =>
         download
           (repo_world [("A", ("amd64" +:+ String "010" "",
                               "1.0" +:+ String "010" "", ""))])
           2 pkg "/tmp/deb2aci") ["A"] ∅)
    as [[[e done'] evs]|] eqn:H.
  - pose proof H as Hc. vm_compute in Hc. injection Hc as <- <- <-.
    eexists _, _, _. split; [reflexivity|].
    match goal with |- ?P ∧ _ => assert P as Hd by (vm_compute; reflexivity) end.
    split; [exact Hd|].
    exact (proj1 (proj2 (resolver_stores_trimmed_fields
                           _ _ _ _ _ _ _ _ "A" _ H (lookup_empty _) Hd))).
  - vm_compute in H. discriminate H.
Defined.

(** X12: [parseDeps] gives the same names for a declaration and for the
    declaration trimmed, as [download] hands it over from [output]. *)
Theorem parseDeps_of_trimmed line :
  parseDeps (TrimSpace line) = parseDeps line.
Proof. by rewrite !parseDeps_eq, TrimSpace_idem. Qed.
